(** * pyMOI: multiplicity-of-infection estimation from aligned reads

    A shallow embedding of [src/pymoi/models.py] and [src/pymoi/main.py],
    followed by the properties of the triplet selection, the allele caller,
    the haplotype counter and the percentile aggregation.

    Conventions of the embedding
    - Python [int] is [Z]; lengths and occurrence counts, which Python
      produces with [len] and [Counter], are [nat].
    - Python [float] is an IEEE 754 binary64 value, [spec_float] with
      [prec = 53] and [emax = 1024]; products are rounded to nearest even.
    - A raised exception is the [Raise] case of [result]; [print], [tqdm],
      [tabulate] and [json.dump] have no influence on the computed values
      and are left out.
    - [dict] and [Counter] are [gmap]. *)

From Stdlib Require Import ZArith Ascii String SpecFloat.
From stdpp Require Import gmap strings list sorting.

Local Open Scope Z_scope.

(** ** Exceptions *)

Inductive exn : Set := IndexError | TypeError | ValueError | OverflowError.

Inductive result (A : Type) : Type :=
  | Ok (a : A)
  | Raise (e : exn).
Arguments Ok {A} a.
Arguments Raise {A} e.

Global Instance result_ret : MRet result := λ A a, Ok a.
Global Instance result_bind : MBind result := λ A B f m,
  match m with Ok a => f a | Raise e => Raise e end.
Global Instance result_fmap : FMap result := λ A B f m,
  match m with Ok a => Ok (f a) | Raise e => Raise e end.

Global Instance exn_eq_dec : EqDecision exn.
Proof. solve_decision. Defined.

(** [l[i]] for a Python list and a Python int: a negative index counts from
    the end, anything outside the list raises [IndexError]. *)
Definition py_index {A} (l : list A) (i : Z) : result A :=
  let j := if i <? 0 then i + Z.of_nat (length l) else i in
  if j <? 0 then Raise IndexError
  else match l !! Z.to_nat j with
       | Some x => Ok x
       | None => Raise IndexError
       end.

(** ** models.py *)

Record GenomePosition : Set := { chrom : string; pos : Z }.

Global Instance GenomePosition_eq_dec : EqDecision GenomePosition.
Proof. solve_decision. Defined.

Global Instance GenomePosition_countable : Countable GenomePosition.
Proof.
  refine (inj_countable' (λ p, (chrom p, pos p))
                         (λ cp, {| chrom := cp.1; pos := cp.2 |}) _).
  by intros [].
Defined.

(** [GenomePosition.__lt__] *)
Definition GenomePosition_lt (self other : GenomePosition) : result bool :=
  if negb (String.eqb (chrom self) (chrom other)) then Raise ValueError
  else Ok (pos self <? pos other).

Record GenomeRange : Set := { gr_chrom : string; gr_start : Z; gr_end : Z }.

(** [GenomeRange.__contains__] *)
Definition GenomeRange_contains (self : GenomeRange) (p : GenomePosition) : bool :=
  if String.eqb (chrom p) (gr_chrom self)
     && (pos p >=? gr_start self) && (pos p <=? gr_end self)
  then true else false.

(** ** main.py: get_triplets *)

(** A record of the variant file: [var.contig] and [var.pos]. *)
Record VariantRecord : Set := { contig : string; var_pos : Z }.

(** The window built around the anchor [p] (line 80). *)
Definition anchor_range (p : GenomePosition) (maxdist : Z) : GenomeRange :=
  {| gr_chrom := chrom p; gr_start := pos p; gr_end := pos p + maxdist |}.

(** [[q for q in snp_positions if q in gr][:3]] (line 81). *)
Definition companions (snp_positions : list GenomePosition)
    (p : GenomePosition) (maxdist : Z) : list GenomePosition :=
  take 3 (filter (λ q, GenomeRange_contains (anchor_range p maxdist) q) snp_positions).

(** The positions collected from the variant records (lines 75 to 77). *)
Definition snp_positions_of (vcf : list VariantRecord) : list GenomePosition :=
  (λ var, {| chrom := contig var; pos := var_pos var |}) <$> vcf.

Definition get_triplets (vcf : list VariantRecord) (maxdist : Z)
    : list (list GenomePosition) :=
  let snp_positions := snp_positions_of vcf in
  omap (λ p,
          let positions := companions snp_positions p maxdist in
          if decide (length positions = 3%nat) then Some positions else None)
       snp_positions.

(** ** Python numbers: binary64 floats next to unbounded ints *)

Definition prec : Z := 53.
Definition emax : Z := 1024.

(** The conversion of the int operand of [int * float]: the nearest double,
    ties to even, and [OverflowError] beyond the largest finite one. *)
Definition float_of_int (i : Z) : result spec_float :=
  match binary_normalize prec emax i 0 false with
  | S754_infinity _ => Raise OverflowError
  | f => Ok f
  end.

(** [i * f] for an int [i] and a float [f]. *)
Definition int_mul_float (i : Z) (f : spec_float) : result spec_float :=
  x ← float_of_int i; Ok (SFmul prec emax x f).

(** [int(f)]: truncation towards zero. *)
Definition int_of_float (f : spec_float) : result Z :=
  match f with
  | S754_nan => Raise ValueError
  | S754_infinity _ => Raise OverflowError
  | S754_zero _ => Ok 0
  | S754_finite s m e => Ok (cond_Zopp s (Z.shiftl (Zpos m) e))
  end.

(** Python compares a float with an int exactly, without converting the int;
    [None] is the unordered case of a NaN. *)
Definition float_compare_int (f : spec_float) (i : Z) : option comparison :=
  match f with
  | S754_nan => None
  | S754_infinity s => Some (if s then Lt else Gt)
  | S754_zero _ => Some (0 ?= i)
  | S754_finite s m e =>
      Some (if 0 <=? e then cond_Zopp s (Zpos m) * 2 ^ e ?= i
            else cond_Zopp s (Zpos m) ?= i * 2 ^ (- e))
  end.

(** [f < i] *)
Definition float_lt_int (f : spec_float) (i : Z) : bool :=
  match float_compare_int f i with Some Lt => true | _ => false end.

(** [i > f], which Python answers with the reflected [f < i]. *)
Definition int_gt_float (i : Z) (f : spec_float) : bool := float_lt_int f i.

(** The literal [0.9], 0x3FECCCCCCCCCCCCD. *)
Definition float_0_9 : spec_float := S754_finite false 8106479329266893 (-53).

(** ** Characters *)

Definition islower (c : ascii) : bool :=
  let n := N_of_ascii c in ((97 <=? n) && (n <=? 122))%N.

Definition upper (c : ascii) : ascii :=
  if islower c then ascii_of_N (N_of_ascii c - 32) else c.

(** ** Loops that may raise *)

Fixpoint foldM {A B} (f : B → A → result B) (acc : B) (l : list A) : result B :=
  match l with
  | [] => Ok acc
  | x :: l => acc' ← f acc x; foldM f acc' l
  end.

(** [Counter(l)] *)
Definition Counter `{Countable K} (l : list K) : gmap K nat :=
  foldl (λ m x, <[x := S (default 0%nat (m !! x))]> m) ∅ l.

(** ** Aligned reads *)

(** One element of [read.get_aligned_pairs(with_seq=True)]: read offset,
    reference coordinate and reference base, each possibly [None]. *)
Definition aligned_pair : Set := (option Z * option Z * option ascii)%type.

Record AlignedSegment : Set := {
  reference_name : string;
  mapping_quality : Z;
  is_secondary : bool;
  is_supplementary : bool;
  is_unmapped : bool;
  query_sequence : option string;
  query_qualities : option (list Z);
  get_aligned_pairs : list aligned_pair
}.

(** The alignment file, as far as the program uses it. *)
Record AlignmentFile : Type := {
  fetch : string → Z → Z → list AlignedSegment
}.

(** [x[i]] where [x] may be [None]. *)
Definition subscript {A} (x : option (list A)) (i : Z) : result A :=
  match x with
  | None => Raise TypeError
  | Some l => py_index l i
  end.

(** ** main.py: get_alleles *)

(** The body of the loop over the aligned pairs (lines 18 to 30). *)
Definition get_alleles_step (read : AlignedSegment) (positions : list GenomePosition)
    (alleles : gmap GenomePosition ascii) (pair : aligned_pair)
    : result (gmap GenomePosition ascii) :=
  let '(read_pos, ref_pos, read_nt) := pair in
  match read_nt with
  | None => Ok alleles
  | Some read_nt =>
    match read_pos with
    | None => Ok alleles
    | Some read_pos =>
      ref_pos ← (match ref_pos with Some r => Ok r | None => Raise TypeError end);
      let p := {| chrom := reference_name read; pos := ref_pos + 1 |} in
      if negb (bool_decide (p ∈ positions)) then Ok alleles else
      q ← subscript (query_qualities read) read_pos;
      if q <? 12 then Ok alleles else
      read_nt ← (if islower read_nt
                 then upper <$> subscript (list_ascii_of_string <$> query_sequence read) read_pos
                 else Ok read_nt);
      Ok (<[p := read_nt]> alleles)
    end
  end.

Definition get_alleles (read : AlignedSegment) (positions : list GenomePosition)
    : result (list (option ascii)) :=
  alleles ← foldM (get_alleles_step read positions) ∅ (get_aligned_pairs read);
  Ok ((λ p, alleles !! p) <$> positions).

(** ** main.py: get_haplotype_counts *)

(** [min(l)]: every later item is compared with the smallest so far by
    [item < smallest]. *)
Definition min_step (m item : GenomePosition) : result GenomePosition :=
  b ← GenomePosition_lt item m; Ok (if b : bool then item else m).

Definition py_min (l : list GenomePosition) : result GenomePosition :=
  match l with
  | [] => Raise ValueError
  | x :: l => foldM min_step x l
  end.

(** [max(l)]: [item > largest] is not defined by the class, so Python
    evaluates the reflected [largest < item]. *)
Definition max_step (m item : GenomePosition) : result GenomePosition :=
  b ← GenomePosition_lt m item; Ok (if b : bool then item else m).

Definition py_max (l : list GenomePosition) : result GenomePosition :=
  match l with
  | [] => Raise ValueError
  | x :: l => foldM max_step x l
  end.

(** [all(alleles)]: [None] is false, a base is a non-empty string. *)
Definition all_called (alleles : list (option ascii)) : bool :=
  forallb (λ a, match a with Some _ => true | None => false end) alleles.

(** [''.join(alleles)] once every allele is there. *)
Definition join (alleles : list (option ascii)) : string :=
  string_of_list_ascii (omap id alleles).

(** The body of the loop over the fetched reads (lines 43 to 53). *)
Definition count_read (positions : list GenomePosition)
    (allele_combinations : list string) (read : AlignedSegment)
    : result (list string) :=
  if mapping_quality read <? 10 then Ok allele_combinations else
  if is_secondary read then Ok allele_combinations else
  if is_supplementary read then Ok allele_combinations else
  if is_unmapped read then Ok allele_combinations else
  alleles ← get_alleles read positions;
  if all_called alleles then Ok (allele_combinations ++ [join alleles])
  else Ok allele_combinations.

Definition get_haplotype_counts (bam : AlignmentFile) (positions : list GenomePosition)
    : result (gmap string nat) :=
  p0 ← py_index positions 0;
  let chrom := chrom p0 in
  start ← pos <$> py_min positions;
  end_ ← pos <$> py_max positions;
  allele_combinations ← foldM (count_read positions) [] (fetch bam chrom start end_);
  Ok (Counter allele_combinations).

(** ** main.py: get_num_haplotype *)

(** [sum(counts.values())] *)
Definition sum_values (counts : gmap string nat) : nat :=
  map_fold (λ _ v acc, (v + acc)%nat) 0%nat counts.

(** The dict comprehension of lines 66 and 68 for a threshold [t]. *)
Definition filter_counts (t : spec_float) (counts : gmap string nat) : gmap string nat :=
  filter (λ kv, int_gt_float (Z.of_nat kv.2) t) counts.

(** Lines 63 to 69, for the table [counts] of line 62. [min_count] is a
    float, as the command line parses it; in these comparisons the int
    default 10 of the signature behaves as the float 10.0. *)
Definition filtered_counts (counts : gmap string nat) (min_count : spec_float)
    : result (gmap string nat) :=
  if float_lt_int min_count 1 then
    temp_count ← int_mul_float (Z.of_nat (sum_values counts)) min_count;
    Ok (filter_counts temp_count counts)
  else Ok (filter_counts min_count counts).

Definition get_num_haplotype (bam : AlignmentFile) (positions : list GenomePosition)
    (min_count : spec_float) : result nat :=
  counts ← get_haplotype_counts bam positions;
  filtered_counts ← filtered_counts counts min_count;
  Ok (size filtered_counts).

(** ** main.py: main *)

(** The result written to the output file, without its constant fields
    [software] and [version]. *)
Record MoiResult : Type := {
  moi : nat;
  haplotype_counts : gmap nat nat
}.

(** The body of the loop over the triplets (lines 100 to 106). *)
Definition collect_num_haps (bam : AlignmentFile) (min_count : spec_float)
    (haplotype_counts : list nat) (positions : list GenomePosition)
    : result (list nat) :=
  num_haps ← get_num_haplotype bam positions min_count;
  if (0 <? num_haps)%nat then Ok (haplotype_counts ++ [num_haps])
  else Ok haplotype_counts.

(** Lines 108 to 122: the list collected by the loop is sorted, counted
    and indexed at [int(len * 0.9)]. *)
Definition summarise (haplotype_counts : list nat) : result MoiResult :=
  let haplotype_counts := merge_sort (≤)%nat haplotype_counts in
  let count := Counter haplotype_counts in
  x ← int_mul_float (Z.of_nat (length haplotype_counts)) float_0_9;
  i ← int_of_float x;
  moi ← py_index haplotype_counts i;
  Ok {| moi := moi; haplotype_counts := count |}.

Definition main (bam : AlignmentFile) (vcf : list VariantRecord)
    (min_count : spec_float) (maxdist : Z) : result MoiResult :=
  let triplets := get_triplets vcf maxdist in
  haplotype_counts ← foldM (collect_num_haps bam min_count) [] triplets;
  summarise haplotype_counts.

(** ** Order of the variant records *)

(** Two positions of one chromosome are in ascending order. *)
Definition same_chrom_le (a b : GenomePosition) : Prop :=
  chrom a = chrom b → pos a ≤ pos b.

Definition same_chrom_lt (a b : GenomePosition) : Prop :=
  chrom a = chrom b → pos a < pos b.

Global Instance same_chrom_le_dec a b : Decision (same_chrom_le a b).
Proof. unfold same_chrom_le. apply _. Defined.

Global Instance same_chrom_lt_dec a b : Decision (same_chrom_lt a b).
Proof. unfold same_chrom_lt. apply _. Defined.

(** The positions are ascending by coordinate within each chromosome;
    two records may share a position. *)
Definition sorted_within_chrom (l : list GenomePosition) : Prop :=
  StronglySorted same_chrom_le l.

(** The same with no position repeated. *)
Definition strictly_sorted_within_chrom (l : list GenomePosition) : Prop :=
  StronglySorted same_chrom_lt l.

Global Instance sorted_within_chrom_dec l : Decision (sorted_within_chrom l).
Proof. unfold sorted_within_chrom. apply _. Defined.

Global Instance strictly_sorted_within_chrom_dec l :
  Decision (strictly_sorted_within_chrom l).
Proof. unfold strictly_sorted_within_chrom. apply _. Defined.

(** Number of occurrences of [k] in [l]. *)
Definition occurrences `{EqDecision K} (k : K) (l : list K) : nat :=
  length (filter (λ x, x = k) l).

(** The retained counts of the marker sets, one per marker set and zeros
    included, as [get_num_haplotype] returns them in the loop of [main]. *)
Definition retained_counts (bam : AlignmentFile) (min_count : spec_float)
    (triplets : list (list GenomePosition)) (ns : list nat) : Prop :=
  Forall2 (λ positions n, get_num_haplotype bam positions min_count = Ok n) triplets ns.

(** ** Vocabulary for the allele caller *)

(** The base the read sequenced at the offset [read_pos], uppercased. *)
Definition sequenced_base (read : AlignedSegment) (read_pos : Z) : result ascii :=
  upper <$> subscript (list_ascii_of_string <$> query_sequence read) read_pos.

(** The position [p] is observed by an aligned pair of the read, neither an
    insertion nor a deletion, at the read offset [read_pos] with reference
    base [read_nt] and a base quality of at least 12. *)
Definition observed_at (read : AlignedSegment) (p : GenomePosition)
    (read_pos : Z) (read_nt : ascii) : Prop :=
  ∃ ref_pos q,
    (Some read_pos, Some ref_pos, Some read_nt) ∈ get_aligned_pairs read ∧
    p = {| chrom := reference_name read; pos := ref_pos + 1 |} ∧
    subscript (query_qualities read) read_pos = Ok q ∧ 12 ≤ q.





(** An aligned pair of the read, neither insertion nor deletion, lies on
    one of the target positions. *)
Definition hits (read : AlignedSegment) (positions : list GenomePosition) : Prop :=
  ∃ read_pos ref_pos read_nt,
    (Some read_pos, Some ref_pos, Some read_nt) ∈ get_aligned_pairs read ∧
    {| chrom := reference_name read; pos := ref_pos + 1 |} ∈ positions.

(** No pair has a read offset and a reference base without a reference
    coordinate. *)
Definition coordinates_present (read : AlignedSegment) : Prop :=
  ∀ read_pos read_nt, (Some read_pos, None, Some read_nt) ∉ get_aligned_pairs read.

(** The read passes the filters of lines 43 to 50. *)
Definition passes_filters (read : AlignedSegment) : Prop :=
  10 ≤ mapping_quality read ∧ is_secondary read = false ∧
  is_supplementary read = false ∧ is_unmapped read = false.

(** ** Vocabulary for the haplotype counter *)

(** The filters of lines 43 to 50 as a test. *)
Definition passing (read : AlignedSegment) : bool :=
  negb (mapping_quality read <? 10) && negb (is_secondary read) &&
  negb (is_supplementary read) && negb (is_unmapped read).

(** The alignment file without the reads the filters reject. *)
Definition keep_passing (bam : AlignmentFile) : AlignmentFile :=
  {| fetch := λ c start end_, List.filter passing (fetch bam c start end_) |}.

(** What a read adds to the allele combinations: the joined alleles of a
    read that passes the filters and has a call at every position. *)
Definition counted (positions : list GenomePosition) (read : AlignedSegment)
    : option string :=
  if passing read then
    match get_alleles read positions with
    | Ok alleles => if all_called alleles then Some (join alleles) else None
    | Raise _ => None
    end
  else None.

(** The sum of the values of a histogram. *)
Definition histogram_total (h : gmap nat nat) : nat :=
  map_fold (λ _ v acc, (v + acc)%nat) 0%nat h.

(** ** Vocabulary for the rounding of binary64 *)

(** [P / 2 ^ k] rounded to the nearest integer, ties to even. *)
Definition rne (P k : Z) : Z :=
  let q := P / 2 ^ k in
  let r := P mod 2 ^ k in
  match 2 * r ?= 2 ^ k with
  | Lt => q
  | Eq => if Z.even q then q else q + 1
  | Gt => q + 1
  end.

(** The float of sign [s], mantissa [m] and exponent [e], infinite once the
    exponent leaves the range. *)
Definition finish (s : bool) (m e : Z) : spec_float :=
  match m with
  | 0 => S754_zero s
  | Zpos p => if e <=? emax - prec then S754_finite s p e else S754_infinity s
  | Zneg _ => S754_nan
  end.

(** The rounding of a positive [X], counted in units of [2 ^ u]: mantissa
    and exponent before the mantissa is renormalised. *)
Definition round_scaled (u X : Z) : Z * Z :=
  let E := fexp prec emax (Z.log2 X + 1 + u) in (rne X (E - u), E).

(** Mantissa and exponent once the mantissa [2 ^ 53] is renormalised. *)
Definition round_final (u X : Z) : Z * Z :=
  let '(m, E) := round_scaled u X in
  if m =? 2 ^ prec then (2 ^ (prec - 1), E + 1) else (m, E).

(** The double nearest to [X * 2 ^ u], with sign [s]. *)
Definition round_float (s : bool) (u X : Z) : spec_float :=
  let '(m, E) := round_scaled u X in
  if m =? 2 ^ prec then finish s (2 ^ (prec - 1)) (E + 1) else finish s m E.

(** ** Sample data *)

Definition snp (c : string) (x : Z) : GenomePosition := {| chrom := c; pos := x |}.
Definition variant (c : string) (x : Z) : VariantRecord := {| contig := c; var_pos := x |}.

(** A primary read of mapping quality 60 on [c] that matches the reference
    base for base from the 0-based coordinate [start]. *)
Definition matching_read (c : string) (start : Z) (seq : string)
    (quals : option (list Z)) : AlignedSegment :=
  {| reference_name := c; mapping_quality := 60;
     is_secondary := false; is_supplementary := false; is_unmapped := false;
     query_sequence := Some seq; query_qualities := quals;
     get_aligned_pairs :=
       imap (λ i nt, (Some (Z.of_nat i), Some (start + Z.of_nat i), Some nt))
            (list_ascii_of_string seq) |}.

(** A read [AGG] on reference [A-AT]: a match, an insertion, a deletion and
    a mismatch, which the reference base in lowercase marks. *)
Definition indel_mismatch_read (quals : option (list Z)) : AlignedSegment :=
  {| reference_name := "1"; mapping_quality := 60;
     is_secondary := false; is_supplementary := false; is_unmapped := false;
     query_sequence := Some "AGG"%string; query_qualities := quals;
     get_aligned_pairs :=
       [(Some 0, Some 0, Some "A"%char); (Some 1, None, None);
        (None, Some 1, Some "A"%char); (Some 2, Some 2, Some "t"%char)] |}.

(** Whether a read has an aligned base in the 0-based interval
    [[start, end_)] of [c]. *)
Definition overlaps (c : string) (start end_ : Z) (read : AlignedSegment) : bool :=
  String.eqb (reference_name read) c &&
  existsb (λ pair : aligned_pair,
             match pair.1.2 with
             | Some x => (start <=? x) && (x <? end_)
             | None => false
             end) (get_aligned_pairs read).

(** An alignment file holding the given reads. *)
Definition bam_of (reads : list AlignedSegment) : AlignmentFile :=
  {| fetch := λ c start end_, List.filter (overlaps c start end_) reads |}.

(** Three bases of quality 30. *)
Definition quals_30 : option (list Z) := Some [30; 30; 30].

(** The float [0.5]. *)
Definition float_0_5 : spec_float := S754_finite false 4503599627370496 (-53).

(** The floats [1.0], [10.0], [0.1] and [1.8]. *)
Definition float_1 : spec_float := S754_finite false 4503599627370496 (-52).
Definition float_10 : spec_float := S754_finite false 5629499534213120 (-49).
Definition float_0_1 : spec_float := S754_finite false 7205759403792794 (-56).
Definition float_1_8 : spec_float := S754_finite false 8106479329266893 (-52).

(** The floats [0.3], [3.0], [0.57] and [56.99999999999999]. *)
Definition float_0_3 : spec_float := S754_finite false 5404319552844595 (-54).
Definition float_3 : spec_float := S754_finite false 6755399441055744 (-51).
Definition float_0_57 : spec_float := S754_finite false 5134103575202365 (-53).
Definition float_56_99 : spec_float := S754_finite false 8022036836253695 (-47).


(** * Properties *)

(** ** The error monad *)

Lemma bind_Ok {A B} (a : A) (f : A → result B) : Ok a ≫= f = f a.
Proof. reflexivity. Qed.

Lemma foldM_cons {A B} (f : B → A → result B) acc x l :
  foldM f acc (x :: l) = f acc x ≫= λ acc', foldM f acc' l.
Proof. reflexivity. Qed.

Lemma foldM_app {A B} (f : B → A → result B) l1 l2 : ∀ acc,
  foldM f acc (l1 ++ l2) = foldM f acc l1 ≫= λ acc', foldM f acc' l2.
Proof.
  induction l1 as [|x l1 IH]; intros acc; [done|].
  simpl. destruct (f acc x); simpl; [apply IH | done].
Qed.

(** ** GenomeRange and get_triplets *)

(** Of the positions 100, 150, 200 and 900 with [maxdist = 500], only the
    anchor at 100 has three positions in its window. *)
Lemma get_triplets_example :
  get_triplets [variant "1" 100; variant "1" 150; variant "1" 200; variant "1" 900] 500
  = [[snp "1" 100; snp "1" 150; snp "1" 200]].
Proof. reflexivity. Qed.

Lemma GenomeRange_contains_spec gr q :
  GenomeRange_contains gr q = true ↔
  chrom q = gr_chrom gr ∧ gr_start gr ≤ pos q ∧ pos q ≤ gr_end gr.
Proof.
  unfold GenomeRange_contains.
  destruct (String.eqb_spec (chrom q) (gr_chrom gr)) as [He|He]; simpl.
  - destruct (Z.geb_spec (pos q) (gr_start gr)); simpl;
      [destruct (Z.leb_spec (pos q) (gr_end gr)); simpl|]; split;
      try done; try (intros (_ & ? & ?); lia); intros _; repeat split; auto; lia.
  - split; [done | by intros [? _]].
Qed.

Lemma companions_elem snps p maxdist q :
  q ∈ companions snps p maxdist →
  q ∈ snps ∧ chrom q = chrom p ∧ pos p ≤ pos q ∧ pos q ≤ pos p + maxdist.
Proof.
  unfold companions. intros Hq.
  apply (subseteq_take 3) in Hq. apply list_elem_of_filter in Hq as [Hc Hin].
  apply Is_true_true, GenomeRange_contains_spec in Hc. by split.
Qed.

Lemma StronglySorted_sublist {A} (R : relation A) (l k : list A) :
  l `sublist_of` k → StronglySorted R k → StronglySorted R l.
Proof.
  induction 1 as [|x l k Hs IH|x l k Hs IH]; intros Hk; [done|..].
  - apply StronglySorted_inv in Hk as [Hk Hx]. constructor; [by apply IH|].
    eapply Forall_forall. intros y Hy. eapply Forall_forall in Hx; [done|].
    by eapply sublist_subseteq.
  - apply StronglySorted_inv in Hk as [Hk _]. by apply IH.
Qed.

Lemma companions_sublist snps p maxdist :
  companions snps p maxdist `sublist_of` snps.
Proof.
  unfold companions. etrans; [apply sublist_take | apply sublist_filter].
Qed.

Lemma get_triplets_elem vcf maxdist t :
  t ∈ get_triplets vcf maxdist →
  ∃ p, p ∈ snp_positions_of vcf ∧ t = companions (snp_positions_of vcf) p maxdist
       ∧ length t = 3%nat.
Proof.
  unfold get_triplets. fold (snp_positions_of vcf).
  intros Ht. apply list_elem_of_omap in Ht as (p & Hp & Hsome).
  simpl in Hsome. case_decide as Hlen; [|done].
  injection Hsome as <-. eauto.
Qed.

(** C4 (as amended). The window of an anchor is closed on both sides: a
    position lies in it exactly when it is on the anchor's chromosome with a
    coordinate from [pos p] to [pos p + maxdist], both included, and the
    companions of the anchor are the first three input positions of that
    closed window. *)
Theorem anchor_window_closed (snps : list GenomePosition) (p q : GenomePosition)
    (maxdist : Z) :
  (GenomeRange_contains (anchor_range p maxdist) q = true ↔
     chrom q = chrom p ∧ pos p ≤ pos q ≤ pos p + maxdist) ∧
  companions snps p maxdist =
    take 3 (filter (λ q, chrom q = chrom p ∧ pos p ≤ pos q ≤ pos p + maxdist) snps).
Proof.
  split; [apply GenomeRange_contains_spec|].
  unfold companions. f_equal. apply list_filter_iff. intros x.
  rewrite Is_true_true. apply GenomeRange_contains_spec.
Qed.

Lemma anchor_window_closed_witness :
  GenomeRange_contains (anchor_range (snp "1" 100) 500) (snp "1" 600) = true ↔
  chrom (snp "1" 600) = chrom (snp "1" 100) ∧
  pos (snp "1" 100) ≤ pos (snp "1" 600) ≤ pos (snp "1" 100) + 500.
Proof.
  exact (proj1 (anchor_window_closed [] (snp "1" 100) (snp "1" 600) 500)).
Defined.

(** C4, the claim as written fails: with SNPs at 100, 150 and 600 and
    [maxdist = 500], the SNP at 600 = 100 + 500 is a companion of the
    anchor at 100 and the triplet is emitted. *)
Lemma right_end_is_collected :
  let vcf := [variant "1" 100; variant "1" 150; variant "1" 600] in
  snp "1" (100 + 500) ∈ companions (snp_positions_of vcf) (snp "1" 100) 500 ∧
  get_triplets vcf 500 = [[snp "1" 100; snp "1" 150; snp "1" 600]].
Proof.
  split; [|reflexivity].
  vm_compute. repeat (constructor; try done).
Qed.

(** C8 (as amended). On an input ascending by coordinate within each
    chromosome, every emitted marker set has exactly three positions, all
    on one chromosome, in ascending coordinate order, and spanning at most
    [maxdist]; the three positions are pairwise distinct when no input
    position is repeated. *)
Theorem get_triplets_invariant (vcf : list VariantRecord) (maxdist : Z)
    (t : list GenomePosition) :
  sorted_within_chrom (snp_positions_of vcf) →
  t ∈ get_triplets vcf maxdist →
  ∃ a b c, t = [a; b; c] ∧
    chrom a = chrom b ∧ chrom b = chrom c ∧
    pos a ≤ pos b ≤ pos c ∧
    pos c - pos a ≤ maxdist ∧
    (strictly_sorted_within_chrom (snp_positions_of vcf) →
       pos a < pos b < pos c ∧ NoDup t).
Proof.
  intros Hsorted Ht.
  apply get_triplets_elem in Ht as (p & Hp & -> & Hlen).
  pose proof (companions_sublist (snp_positions_of vcf) p maxdist) as Hsub.
  pose proof (@companions_elem (snp_positions_of vcf) p maxdist) as Hel.
  destruct (companions _ p maxdist) as [|a [|b [|c [|]]]]; try done.
  destruct (Hel a) as (_ & Ha & Ha1 & Ha2); [by left|].
  destruct (Hel b) as (_ & Hb & Hb1 & Hb2); [by right; left|].
  destruct (Hel c) as (_ & Hc & Hc1 & Hc2); [by right; right; left|].
  pose proof (StronglySorted_sublist _ _ _ Hsub Hsorted) as Hs.
  apply StronglySorted_inv in Hs as [Hs Hab].
  apply StronglySorted_inv in Hs as [_ Hbc].
  apply Forall_cons in Hab as [Hab _]. apply Forall_cons in Hbc as [Hbc _].
  unfold same_chrom_le in *.
  exists a, b, c.
  split; [done|]. split; [congruence|]. split; [congruence|].
  split; [split; [apply Hab | apply Hbc]; congruence|].
  split; [lia|].
  intros Hstrict.
  pose proof (StronglySorted_sublist _ _ _ Hsub Hstrict) as Hs'.
  apply StronglySorted_inv in Hs' as [Hs' Hab'].
  apply StronglySorted_inv in Hs' as [_ Hbc'].
  apply Forall_cons in Hab' as [Hab' _]. apply Forall_cons in Hbc' as [Hbc' _].
  unfold same_chrom_lt in *.
  assert (pos a < pos b) as Hlt1 by (apply Hab'; congruence).
  assert (pos b < pos c) as Hlt2 by (apply Hbc'; congruence).
  split; [lia|].
  repeat constructor; rewrite ?elem_of_cons, ?elem_of_nil;
    intros Heq; repeat destruct Heq as [Heq|Heq]; try done; subst; lia.
Qed.

Lemma get_triplets_invariant_witness :
  let vcf := [variant "1" 100; variant "1" 150; variant "1" 200; variant "1" 900] in
  sorted_within_chrom (snp_positions_of vcf) ∧
  [snp "1" 100; snp "1" 150; snp "1" 200] ∈ get_triplets vcf 500 ∧
  ∃ a b c, [snp "1" 100; snp "1" 150; snp "1" 200] = [a; b; c] ∧
    chrom a = chrom b ∧ chrom b = chrom c ∧
    pos a ≤ pos b ≤ pos c ∧
    pos c - pos a ≤ 500 ∧
    (strictly_sorted_within_chrom (snp_positions_of vcf) →
       pos a < pos b < pos c ∧ NoDup [snp "1" 100; snp "1" 150; snp "1" 200]).
Proof.
  intros vcf.
  assert (sorted_within_chrom (snp_positions_of vcf)) as Hs
    by (apply (bool_decide_unpack _); vm_compute; exact I).
  assert ([snp "1" 100; snp "1" 150; snp "1" 200] ∈ get_triplets vcf 500) as Ht
    by (vm_compute; constructor).
  split; [exact Hs|]. split; [exact Ht|].
  exact (get_triplets_invariant vcf 500 _ Hs Ht).
Defined.

(** C8, the claim as written fails: an input in ascending order that lists
    the position 100 twice yields a marker set holding that position
    twice. *)
Lemma repeated_position_triplet :
  let vcf := [variant "1" 100; variant "1" 100; variant "1" 150] in
  sorted_within_chrom (snp_positions_of vcf) ∧
  [snp "1" 100; snp "1" 100; snp "1" 150] ∈ get_triplets vcf 500 ∧
  ¬ NoDup [snp "1" 100; snp "1" 100; snp "1" 150].
Proof.
  split; [|split].
  - apply (bool_decide_unpack _). vm_compute. exact I.
  - vm_compute. constructor.
  - intros Hnd. apply NoDup_cons in Hnd as [Hn _]. apply Hn. constructor.
Qed.

(** ** get_haplotype_counts on positions of several chromosomes *)

Lemma GenomePosition_lt_same a b :
  chrom a = chrom b → GenomePosition_lt a b = Ok (pos a <? pos b).
Proof.
  intros He. unfold GenomePosition_lt. rewrite He, String.eqb_refl. done.
Qed.

Lemma GenomePosition_lt_cross a b :
  chrom a ≠ chrom b → GenomePosition_lt a b = Raise ValueError.
Proof.
  intros Hne. unfold GenomePosition_lt.
  destruct (String.eqb_spec (chrom a) (chrom b)); done.
Qed.

Lemma min_loop_cross l : ∀ m,
  ¬ Forall (λ x, chrom x = chrom m) l →
  foldM min_step m l = Raise ValueError.
Proof.
  induction l as [|x l IH]; intros m Hn; [by destruct Hn|].
  rewrite foldM_cons.
  destruct (decide (chrom x = chrom m)) as [He|Hne].
  - replace (min_step m x) with (Ok (if pos x <? pos m then x else m))
      by (unfold min_step; by rewrite (GenomePosition_lt_same _ _ He)).
    simpl. apply IH. intros Hall. apply Hn. constructor; [done|].
    eapply Forall_impl; [exact Hall|]. simpl. intros y ->.
    by destruct (pos x <? pos m).
  - unfold min_step. by rewrite (GenomePosition_lt_cross _ _ Hne).
Qed.

Lemma py_min_cross positions a b :
  a ∈ positions → b ∈ positions → chrom a ≠ chrom b →
  py_min positions = Raise ValueError.
Proof.
  intros Ha Hb Hne. destruct positions as [|x l]; [done|].
  apply min_loop_cross. intros Hall.
  assert (Forall (λ y, chrom y = chrom x) (x :: l)) as Hall'
    by (by constructor).
  rewrite Forall_forall in Hall'.
  apply Hne. by rewrite (Hall' a Ha), (Hall' b Hb).
Qed.

(** C10. Marker positions of two different chromosomes make
    [get_haplotype_counts] fail with the [ValueError] of the comparison,
    raised while the minimum is taken; no table is returned. *)
Theorem get_haplotype_counts_cross_chrom (bam : AlignmentFile)
    (positions : list GenomePosition) (a b : GenomePosition) :
  a ∈ positions → b ∈ positions → chrom a ≠ chrom b →
  py_min positions = Raise ValueError ∧
  get_haplotype_counts bam positions = Raise ValueError.
Proof.
  intros Ha Hb Hne.
  pose proof (py_min_cross positions a b Ha Hb Hne) as Hmin.
  split; [done|].
  unfold get_haplotype_counts. rewrite Hmin.
  destruct positions as [|x l]; [by apply elem_of_nil in Ha|]. done.
Qed.

Lemma get_haplotype_counts_cross_chrom_witness :
  let bam := {| fetch := λ _ _ _, [] |} in
  let positions := [snp "1" 100; snp "1" 150; snp "2" 120] in
  snp "1" 150 ∈ positions ∧ snp "2" 120 ∈ positions ∧
  chrom (snp "1" 150) ≠ chrom (snp "2" 120) ∧
  py_min positions = Raise ValueError ∧
  get_haplotype_counts bam positions = Raise ValueError.
Proof.
  intros bam positions.
  assert (snp "1" 150 ∈ positions) as Ha by (right; left).
  assert (snp "2" 120 ∈ positions) as Hb by (right; right; left).
  assert (chrom (snp "1" 150) ≠ chrom (snp "2" 120)) as Hne by (simpl; discriminate).
  split; [exact Ha|]. split; [exact Hb|]. split; [exact Hne|].
  exact (get_haplotype_counts_cross_chrom bam positions _ _ Ha Hb Hne).
Defined.

(** ** Counter *)

Lemma Counter_snoc `{Countable K} (l : list K) (x : K) :
  Counter (l ++ [x]) = <[x := S (default 0%nat (Counter l !! x))]> (Counter l).
Proof. unfold Counter. by rewrite foldl_app. Qed.

Lemma occurrences_snoc `{EqDecision K} (k x : K) (l : list K) :
  occurrences k (l ++ [x]) =
  (occurrences k l + if decide (x = k) then 1 else 0)%nat.
Proof.
  unfold occurrences. rewrite filter_app, length_app. f_equal.
  rewrite filter_cons, filter_nil. by destruct (decide (x = k)).
Qed.

Lemma occurrences_zero `{EqDecision K} (k : K) (l : list K) :
  occurrences k l = 0%nat ↔ k ∉ l.
Proof.
  unfold occurrences. induction l as [|x l IH].
  - split; [intros _; apply not_elem_of_nil | done].
  - rewrite filter_cons, not_elem_of_cons. destruct (decide (x = k)) as [->|Hne].
    + simpl. split; [done | by intros [? _]].
    + rewrite IH. split; [by split | by intros [_ ?]].
Qed.

Lemma Counter_lookup `{Countable K} (l : list K) (k : K) :
  Counter l !! k = if decide (k ∈ l) then Some (occurrences k l) else None.
Proof.
  induction l as [|x l IH] using rev_ind.
  - rewrite decide_False by apply not_elem_of_nil. apply lookup_empty.
  - rewrite Counter_snoc, occurrences_snoc.
    destruct (decide (x = k)) as [->|Hne].
    + rewrite lookup_insert_eq, IH.
      rewrite (decide_True (P := k ∈ l ++ [k]))
        by (apply elem_of_app; right; left).
      case_decide as Hin; simpl; [f_equal; lia|].
      apply occurrences_zero in Hin. rewrite Hin. done.
    + rewrite lookup_insert_ne, IH by done.
      rewrite Nat.add_0_r.
      apply decide_ext. rewrite elem_of_app, list_elem_of_singleton.
      split; [by left | by intros [?|?]].
Qed.

Lemma occurrences_Permutation `{EqDecision K} (k : K) (l1 l2 : list K) :
  l1 ≡ₚ l2 → occurrences k l1 = occurrences k l2.
Proof. intros Hp. unfold occurrences. by rewrite Hp. Qed.

Lemma Counter_Permutation `{Countable K} (l1 l2 : list K) :
  l1 ≡ₚ l2 → Counter l1 = Counter l2.
Proof.
  intros Hp. apply map_eq. intros k. rewrite !Counter_lookup.
  rewrite (occurrences_Permutation k _ _ Hp).
  apply decide_ext. by rewrite Hp.
Qed.

Lemma Counter_positive `{Countable K} (l : list K) (k : K) (n : nat) :
  Counter l !! k = Some n → (0 < n)%nat.
Proof.
  rewrite Counter_lookup. case_decide as Hin; [|done].
  intros [= <-]. destruct (decide (occurrences k l = 0%nat)) as [Hz|]; [|lia].
  by apply occurrences_zero in Hz.
Qed.

(** ** The loop of main *)

Lemma collect_loop bam min_count triplets : ∀ ns acc,
  retained_counts bam min_count triplets ns →
  foldM (collect_num_haps bam min_count) acc triplets =
    Ok (acc ++ filter (λ n, 0 < n)%nat ns).
Proof.
  induction triplets as [|t triplets IH]; intros ns acc Hns.
  - apply Forall2_nil_inv_l in Hns as ->. by rewrite filter_nil, app_nil_r.
  - apply Forall2_cons_inv_l in Hns as (n & ns' & Hn & Hns & ->).
    rewrite foldM_cons.
    replace (collect_num_haps bam min_count acc t)
      with (Ok (if (0 <? n)%nat then acc ++ [n] else acc))
      by (unfold collect_num_haps; rewrite Hn; simpl; by destruct (0 <? n)%nat).
    simpl. rewrite filter_cons. destruct (Nat.ltb_spec 0 n) as [Hpos|Hz].
    + rewrite decide_True by done. rewrite (IH ns' _ Hns).
      by rewrite <- app_assoc.
    + rewrite decide_False by lia. by apply IH.
Qed.

Lemma main_unfold bam vcf min_count maxdist ns :
  retained_counts bam min_count (get_triplets vcf maxdist) ns →
  main bam vcf min_count maxdist = summarise (filter (λ n, 0 < n)%nat ns).
Proof.
  intros Hns. unfold main. by rewrite (collect_loop _ _ _ ns []).
Qed.

Lemma collect_loop_zero bam min_count triplets : ∀ acc,
  Forall (λ positions, get_num_haplotype bam positions min_count = Ok 0%nat) triplets →
  foldM (collect_num_haps bam min_count) acc triplets = Ok acc.
Proof.
  induction triplets as [|t triplets IH]; intros acc Hall; [done|].
  apply Forall_cons in Hall as [Ht Hall]. rewrite foldM_cons.
  replace (collect_num_haps bam min_count acc t) with (Ok acc)
    by (unfold collect_num_haps; by rewrite Ht).
  by apply IH.
Qed.

Lemma summarise_histogram l r :
  summarise l = Ok r → haplotype_counts r = Counter l.
Proof.
  unfold summarise. intros Hr.
  destruct (int_mul_float _ _) as [x|]; [simpl in Hr|done].
  destruct (int_of_float x) as [i|]; [simpl in Hr|done].
  destruct (py_index _ i) as [m|]; [simpl in Hr|done].
  injection Hr as <-. simpl.
  apply Counter_Permutation, merge_sort_Permutation.
Qed.

(** C2 (as amended). When no marker set has a retained count above 0, the
    run fails with the [IndexError] of the subscript
    [haplotype_counts[int(len(haplotype_counts)*0.9)]] on the empty list;
    this covers the empty variant input. *)
Theorem main_without_qualifying_marker_set (bam : AlignmentFile)
    (vcf : list VariantRecord) (min_count : spec_float) (maxdist : Z) :
  Forall (λ positions, get_num_haplotype bam positions min_count = Ok 0%nat)
         (get_triplets vcf maxdist) →
  main bam vcf min_count maxdist = Raise IndexError ∧
  main bam [] min_count maxdist = Raise IndexError.
Proof.
  intros Hall. unfold main. rewrite (collect_loop_zero _ _ _ [] Hall).
  split; reflexivity.
Qed.

Lemma main_without_qualifying_marker_set_witness :
  let vcf := [variant "1" 1; variant "1" 2; variant "1" 3] in
  let bam := bam_of [] in
  Forall (λ positions, get_num_haplotype bam positions float_0_5 = Ok 0%nat)
         (get_triplets vcf 2) ∧
  main bam vcf float_0_5 2 = Raise IndexError ∧
  main bam [] float_0_5 2 = Raise IndexError.
Proof.
  intros vcf bam.
  assert (Forall (λ positions, get_num_haplotype bam positions float_0_5 = Ok 0%nat)
                 (get_triplets vcf 2)) as Hall
    by (repeat constructor).
  split; [exact Hall|].
  exact (main_without_qualifying_marker_set bam vcf float_0_5 2 Hall).
Defined.

(** C2, the claim as written fails: on the empty variant input the index
    [int(0 * 0.9)] is 0 and the failure is the out-of-range subscript of
    the empty list. *)
Lemma empty_input_index_error :
  (int_mul_float 0 float_0_9 ≫= int_of_float) = Ok 0 ∧
  py_index (@nil nat) 0 = Raise IndexError ∧
  main (bam_of []) [] float_0_5 500 = Raise IndexError.
Proof. repeat split. Qed.

(** C5 (as amended). The histogram of the result has no entry for the
    retained count 0: for the retained counts [ns] of all marker sets, it
    maps every [k > 0] that occurs to its number of occurrences and nothing
    else, so the marker sets left out of the aggregation are left out of
    the histogram as well. *)
Theorem histogram_of_positive_counts (bam : AlignmentFile)
    (vcf : list VariantRecord) (min_count : spec_float) (maxdist : Z)
    (ns : list nat) (r : MoiResult) :
  retained_counts bam min_count (get_triplets vcf maxdist) ns →
  main bam vcf min_count maxdist = Ok r →
  haplotype_counts r !! 0%nat = None ∧
  ∀ k, (0 < k)%nat →
    haplotype_counts r !! k =
      if decide (k ∈ ns) then Some (occurrences k ns) else None.
Proof.
  intros Hns Hmain. rewrite (main_unfold _ _ _ _ _ Hns) in Hmain.
  apply summarise_histogram in Hmain. rewrite Hmain. split.
  - rewrite Counter_lookup. apply decide_False.
    rewrite list_elem_of_filter. lia.
  - intros k Hk. rewrite Counter_lookup.
    assert (occurrences k (filter (λ n, 0 < n)%nat ns) = occurrences k ns) as ->.
    { unfold occurrences. rewrite list_filter_filter. f_equal.
      apply list_filter_iff. intros x. split; [by intros [? _] | intros ->; done]. }
    apply decide_ext. rewrite list_elem_of_filter. split; [by intros [_ ?] | done].
Qed.

Lemma histogram_of_positive_counts_witness :
  let bam := bam_of [matching_read "1" 0 "AAG" quals_30] in
  let vcf := [variant "1" 1; variant "1" 2; variant "1" 3; variant "1" 4] in
  let r := {| moi := 1; haplotype_counts := {[ 1%nat := 1%nat ]} |} in
  retained_counts bam float_0_5 (get_triplets vcf 2) [1; 0]%nat ∧
  main bam vcf float_0_5 2 = Ok r ∧
  haplotype_counts r !! 0%nat = None ∧
  ∀ k, (0 < k)%nat →
    haplotype_counts r !! k =
      if decide (k ∈ [1; 0]%nat) then Some (occurrences k [1; 0]%nat) else None.
Proof.
  intros bam vcf r.
  assert (retained_counts bam float_0_5 (get_triplets vcf 2) [1; 0]%nat) as Hns
    by (repeat constructor).
  assert (main bam vcf float_0_5 2 = Ok r) as Hmain by (vm_compute; reflexivity).
  split; [exact Hns|]. split; [exact Hmain|].
  exact (histogram_of_positive_counts bam vcf float_0_5 2 [1; 0]%nat r Hns Hmain).
Defined.

(** C5, the claim as written fails: of the two marker sets analysed, the
    second has the retained count 0, and the histogram of the result has
    one entry, for the count 1, and none for the count 0. *)
Lemma zero_count_not_in_histogram :
  let bam := bam_of [matching_read "1" 0 "AAG" quals_30] in
  let vcf := [variant "1" 1; variant "1" 2; variant "1" 3; variant "1" 4] in
  get_triplets vcf 2 =
    [[snp "1" 1; snp "1" 2; snp "1" 3]; [snp "1" 2; snp "1" 3; snp "1" 4]] ∧
  get_num_haplotype bam [snp "1" 1; snp "1" 2; snp "1" 3] float_0_5 = Ok 1%nat ∧
  get_num_haplotype bam [snp "1" 2; snp "1" 3; snp "1" 4] float_0_5 = Ok 0%nat ∧
  main bam vcf float_0_5 2 =
    Ok {| moi := 1; haplotype_counts := {[ 1%nat := 1%nat ]} |} ∧
  ({[ 1%nat := 1%nat ]} : gmap nat nat) !! 0%nat = None.
Proof. repeat split; vm_compute; reflexivity. Qed.

(** ** get_alleles *)


Lemma length_list_ascii_of_string (s : string) :
  length (list_ascii_of_string s) = String.length s.
Proof. induction s as [|c s IH]; simpl; [done | by rewrite IH]. Qed.

(** The cases of an aligned pair: each component is there or is [None]. *)
Ltac case_pair pair rp rf nt := destruct pair as [[[rp|] [rf|]] [nt|]].

Section AlleleCaller.

Variable read : AlignedSegment.
Variable positions : list GenomePosition.

(** One round of the loop either leaves the dict alone or records, for a
    pair that is observed with sufficient quality, the base of the read at a
    mismatch and the reference base otherwise. *)
Lemma get_alleles_step_Ok alleles pair alleles' :
  get_alleles_step read positions alleles pair = Ok alleles' →
  alleles' = alleles ∨
  ∃ read_pos ref_pos read_nt q c,
    pair = (Some read_pos, Some ref_pos, Some read_nt) ∧
    subscript (query_qualities read) read_pos = Ok q ∧ 12 ≤ q ∧
    (if islower read_nt then sequenced_base read read_pos = Ok c else c = read_nt) ∧
    alleles' = <[{| chrom := reference_name read; pos := ref_pos + 1 |} := c]> alleles.
Proof.
  case_pair pair rp rf nt; simpl;
    try (intros [= <-]; by left); try done.
  destruct (bool_decide _); simpl; [|intros [= <-]; by left].
  destruct (subscript (query_qualities read) rp) as [q|] eqn:Hq; simpl; [|done].
  destruct (Z.ltb_spec q 12) as [|Hq12]; [intros [= <-]; by left|].
  intros Hstep. right. unfold sequenced_base.
  destruct (islower nt) eqn:Hlow.
  - destruct (subscript (list_ascii_of_string <$> query_sequence read) rp)
      as [c|] eqn:Hc; simpl in Hstep; [|done].
    injection Hstep as <-. exists rp, rf, nt, q, (upper c).
    rewrite Hlow, Hc. done.
  - simpl in Hstep. injection Hstep as <-. exists rp, rf, nt, q, nt.
    rewrite Hlow. done.
Qed.

Lemma get_alleles_loop_Ok pairs : ∀ acc alleles p c,
  foldM (get_alleles_step read positions) acc pairs = Ok alleles →
  alleles !! p = Some c →
  acc !! p = Some c ∨
  ∃ read_pos ref_pos read_nt q,
    (Some read_pos, Some ref_pos, Some read_nt) ∈ pairs ∧
    p = {| chrom := reference_name read; pos := ref_pos + 1 |} ∧
    subscript (query_qualities read) read_pos = Ok q ∧ 12 ≤ q ∧
    (if islower read_nt then sequenced_base read read_pos = Ok c else c = read_nt).
Proof.
  induction pairs as [|pair pairs IH]; intros acc alleles p c Hloop Hp.
  - injection Hloop as <-. by left.
  - rewrite foldM_cons in Hloop.
    destruct (get_alleles_step read positions acc pair) as [acc'|] eqn:Hstep;
      [simpl in Hloop|done].
    destruct (IH _ _ _ _ Hloop Hp) as [Hacc'|(rp & rf & nt & q & Hin & Hrest)].
    + apply get_alleles_step_Ok in Hstep
        as [->|(rp & rf & nt & q & c' & -> & Hq & Hq12 & Hc & ->)]; [by left|].
      destruct (decide ({| chrom := reference_name read; pos := rf + 1 |} = p))
        as [<-|Hne].
      * rewrite lookup_insert_eq in Hacc'. injection Hacc' as ->.
        right. exists rp, rf, nt, q. split; [left|]; done.
      * rewrite lookup_insert_ne in Hacc' by done. by left.
    + right. exists rp, rf, nt, q. split; [by right | done].
Qed.



(** A read none of whose aligned pairs lies on a target position gets no
    call, whatever its qualities. *)
Lemma get_alleles_miss :
  ¬ hits read positions → coordinates_present read →
  get_alleles read positions = Ok (replicate (length positions) None).
Proof.
  intros Hmiss Hpresent. unfold get_alleles, hits, coordinates_present in *.
  assert (∀ acc, foldM (get_alleles_step read positions) acc
                   (get_aligned_pairs read) = Ok acc) as ->.
  { induction (get_aligned_pairs read) as [|pair pairs IH]; intros acc; [done|].
    rewrite foldM_cons.
    assert (get_alleles_step read positions acc pair = Ok acc) as ->.
    { case_pair pair rp rf nt; simpl; try done.
      - rewrite bool_decide_eq_false_2; [done|].
        intros Hin. apply Hmiss. exists rp, rf, nt. split; [left|done].
      - destruct (Hpresent rp nt). left. }
    simpl. apply IH.
    + intros (rp & rf & nt & Hin & Hpos). apply Hmiss.
      exists rp, rf, nt. split; [by right | done].
    + intros rp nt Hin. apply (Hpresent rp nt). by right. }
  simpl. f_equal. clear. induction positions as [|p l IH]; [done|].
  rewrite fmap_cons, lookup_empty, IH. done.
Qed.

End AlleleCaller.



(** The base of the read, not of the reference, is called at a mismatch; a
    deletion and a quality below 12 give no call. *)
Lemma get_alleles_examples :
  let positions := [snp "1" 1; snp "1" 2; snp "1" 3] in
  get_alleles (indel_mismatch_read (Some [30; 30; 30])) positions
    = Ok [Some "A"%char; None; Some "G"%char] ∧
  get_alleles (indel_mismatch_read (Some [11; 30; 12])) positions
    = Ok [None; None; Some "G"%char] ∧
  get_alleles (indel_mismatch_read (Some [30; 30; 11])) positions
    = Ok [Some "A"%char; None; None].
Proof. repeat split. Qed.

(** ** Reads without qualities *)

Lemma foldM_raise {A B} (f : B → A → result B) (x : A) (l : list A) :
  x ∈ l → (∀ acc, ∃ e, f acc x = Raise e) →
  ∀ acc, ∃ e, foldM f acc l = Raise e.
Proof.
  intros Hx Hf. induction l as [|y l IH]; intros acc; [by apply elem_of_nil in Hx|].
  rewrite foldM_cons. apply elem_of_cons in Hx as [<-|Hx].
  - destruct (Hf acc) as [e ->]. by exists e.
  - destruct (f acc y) as [acc'|e]; [by apply IH | by exists e].
Qed.

Section NoQualities.

Variable read : AlignedSegment.
Variable positions : list GenomePosition.
Hypothesis no_qualities : query_qualities read = None.

Lemma get_alleles_step_no_quality alleles pair :
  get_alleles_step read positions alleles pair = Raise TypeError ∨
  get_alleles_step read positions alleles pair = Ok alleles ∧
  (∀ read_pos read_nt, pair ≠ (Some read_pos, None, Some read_nt)) ∧
  (∀ read_pos ref_pos read_nt,
     pair = (Some read_pos, Some ref_pos, Some read_nt) →
     {| chrom := reference_name read; pos := ref_pos + 1 |} ∉ positions).
Proof.
  case_pair pair rp rf nt; simpl;
    try (by left); try (right; by repeat split).
  rewrite no_qualities. destruct (bool_decide_reflect
    ({| chrom := reference_name read; pos := rf + 1 |} ∈ positions)) as [Hin|Hnin];
    simpl; [by left|].
  right. repeat split; [done|]. by intros ??? [= _ <- _].
Qed.

Lemma get_alleles_no_quality_hit :
  hits read positions → get_alleles read positions = Raise TypeError.
Proof.
  intros (rp & rf & nt & Hin & Hpos). unfold get_alleles.
  assert (∀ acc, foldM (get_alleles_step read positions) acc
                   (get_aligned_pairs read) = Raise TypeError) as ->; [|done].
  induction (get_aligned_pairs read) as [|pair pairs IH]; intros acc;
    [by apply elem_of_nil in Hin|].
  rewrite foldM_cons.
  destruct (get_alleles_step_no_quality acc pair)
    as [->|(-> & _ & Hmiss)]; [done|]. simpl.
  apply elem_of_cons in Hin as [<-|Hin]; [|by apply IH].
  by destruct (Hmiss _ _ _ eq_refl).
Qed.

End NoQualities.

Lemma count_read_raise positions acc read e :
  passes_filters read → get_alleles read positions = Raise e →
  count_read positions acc read = Raise e.
Proof.
  intros (Hmq & Hsec & Hsup & Hunm) Halleles. unfold count_read.
  destruct (Z.ltb_spec (mapping_quality read) 10); [lia|].
  by rewrite Hsec, Hsup, Hunm, Halleles.
Qed.

Lemma main_raise bam vcf min_count maxdist positions e :
  positions ∈ get_triplets vcf maxdist →
  get_haplotype_counts bam positions = Raise e →
  ∃ e', main bam vcf min_count maxdist = Raise e'.
Proof.
  intros Hin Hraise. unfold main.
  destruct (foldM_raise (collect_num_haps bam min_count) positions
              (get_triplets vcf maxdist) Hin) with (acc := @nil nat) as [e' He'].
  - intros acc. exists e. unfold collect_num_haps, get_num_haplotype.
    by rewrite Hraise.
  - exists e'. by rewrite He'.
Qed.

(** C9 (as amended). A read without quality array is not set aside. When
    one of its aligned pairs lies on a target position, the subscript of
    the missing array raises [TypeError]: [get_alleles] fails, and so do
    [get_haplotype_counts] and [main] once the read passes the filters and
    is fetched for a marker set. Only a read none of whose aligned pairs
    lies on a target position gets no call at every position and leaves the
    allele combinations unchanged. *)
Theorem read_without_qualities (bam : AlignmentFile) (read : AlignedSegment)
    (positions : list GenomePosition) :
  query_qualities read = None →
  (hits read positions →
     get_alleles read positions = Raise TypeError ∧
     (passes_filters read →
      (∀ p0 pmin pmax,
         py_index positions 0 = Ok p0 → py_min positions = Ok pmin →
         py_max positions = Ok pmax →
         read ∈ fetch bam (chrom p0) (pos pmin) (pos pmax)) →
      (∃ e, get_haplotype_counts bam positions = Raise e) ∧
      ∀ vcf min_count maxdist,
        positions ∈ get_triplets vcf maxdist →
        ∃ e, main bam vcf min_count maxdist = Raise e)) ∧
  (¬ hits read positions → coordinates_present read →
     get_alleles read positions = Ok (replicate (length positions) None) ∧
     (positions ≠ [] → ∀ acc, count_read positions acc read = Ok acc)).
Proof.
  intros Hq. split.
  - intros Hhit.
    pose proof (get_alleles_no_quality_hit read positions Hq Hhit) as Hraise.
    split; [done|]. intros Hpass Hfetch.
    assert (∃ e, get_haplotype_counts bam positions = Raise e) as [e He].
    { unfold get_haplotype_counts.
      destruct (py_index positions 0) as [p0|e0]; [simpl|by exists e0].
      destruct (py_min positions) as [pmin|e1]; [simpl|by exists e1].
      destruct (py_max positions) as [pmax|e2]; [simpl|by exists e2].
      destruct (foldM_raise (count_read positions) read
        (fetch bam (chrom p0) (pos pmin) (pos pmax))) with (acc := @nil string)
        as [e He]; [by apply Hfetch | | exists e; by rewrite He].
      intros acc. exists TypeError. by apply count_read_raise. }
    split; [by exists e|].
    intros vcf min_count maxdist Hin. by eapply main_raise.
  - intros Hmiss Hpresent.
    pose proof (get_alleles_miss read positions Hmiss Hpresent) as Hok.
    split; [done|]. intros Hne acc. unfold count_read. rewrite Hok.
    destruct (mapping_quality read <? 10); [done|].
    destruct (is_secondary read); [done|].
    destruct (is_supplementary read); [done|].
    destruct (is_unmapped read); [done|].
    destruct positions; done.
Qed.

Lemma read_without_qualities_witness :
  let read := matching_read "1" 0 "AAG" None in
  let bam := bam_of [read] in
  let positions := [snp "1" 1; snp "1" 2; snp "1" 3] in
  query_qualities read = None ∧
  (hits read positions →
     get_alleles read positions = Raise TypeError ∧
     (passes_filters read →
      (∀ p0 pmin pmax,
         py_index positions 0 = Ok p0 → py_min positions = Ok pmin →
         py_max positions = Ok pmax →
         read ∈ fetch bam (chrom p0) (pos pmin) (pos pmax)) →
      (∃ e, get_haplotype_counts bam positions = Raise e) ∧
      ∀ vcf min_count maxdist,
        positions ∈ get_triplets vcf maxdist →
        ∃ e, main bam vcf min_count maxdist = Raise e)) ∧
  (¬ hits read positions → coordinates_present read →
     get_alleles read positions = Ok (replicate (length positions) None) ∧
     (positions ≠ [] → ∀ acc, count_read positions acc read = Ok acc)).
Proof.
  intros read bam positions.
  assert (query_qualities read = None) as Hq by reflexivity.
  split; [exact Hq|].
  exact (read_without_qualities bam read positions Hq).
Defined.

(** C9, the claim as written fails: one read without qualities that covers
    the three markers of the only marker set aborts the run with
    [TypeError]. *)
Lemma read_without_qualities_aborts :
  let read := matching_read "1" 0 "AAG" None in
  let vcf := [variant "1" 1; variant "1" 2; variant "1" 3] in
  query_qualities read = None ∧
  get_triplets vcf 500 = [[snp "1" 1; snp "1" 2; snp "1" 3]] ∧
  get_alleles read [snp "1" 1; snp "1" 2; snp "1" 3] = Raise TypeError ∧
  main (bam_of [read]) vcf float_0_5 500 = Raise TypeError.
Proof. repeat split. Qed.

(** ** Rounding of binary64 *)

(** The number of binary digits is one more than the binary logarithm. *)
Lemma digits2_pos_size (p : positive) : digits2_pos p = Pos.size p.
Proof. induction p as [p IH|p IH|]; simpl; by rewrite ?IH. Qed.

Lemma Zdigits2_log2 (p : positive) :
  Zdigits2 (Zpos p) = Z.log2 (Zpos p) + 1.
Proof.
  unfold Zdigits2. rewrite digits2_pos_size.
  destruct p as [p|p|]; simpl Pos.size; simpl Z.log2; lia.
Qed.

Lemma Zdigits2_bounds (p : positive) :
  2 ^ (Zdigits2 (Zpos p) - 1) ≤ Zpos p < 2 ^ Zdigits2 (Zpos p).
Proof.
  rewrite Zdigits2_log2. replace (Z.log2 (Z.pos p) + 1 - 1) with (Z.log2 (Z.pos p)) by lia.
  apply Z.log2_spec. lia.
Qed.

Lemma Zdigits2_pos (p : positive) : 0 < Zdigits2 (Zpos p).
Proof. rewrite Zdigits2_log2. pose proof (Z.log2_nonneg (Zpos p)). lia. Qed.

(** The iterator of the float library is plain iteration. *)
Lemma iter_pos_nat {A} (f : A → A) (p : positive) : ∀ x,
  SpecFloat.iter_pos f p x = Nat.iter (Pos.to_nat p) f x.
Proof.
  induction p as [p IH|p IH|]; intros x; simpl SpecFloat.iter_pos.
  - rewrite !IH, Pos2Nat.inj_xI.
    replace (S (2 * Pos.to_nat p)) with (Pos.to_nat p + S (Pos.to_nat p))%nat by lia.
    rewrite Nat.iter_add. f_equal. by rewrite Nat.iter_succ_r.
  - rewrite !IH, Pos2Nat.inj_xO.
    replace (2 * Pos.to_nat p)%nat with (Pos.to_nat p + Pos.to_nat p)%nat by lia.
    by rewrite Nat.iter_add.
  - reflexivity.
Qed.

(** One right shift of the mantissa: the bit shifted out becomes the round
    bit, the former round bit is absorbed by the sticky bit. *)
Lemma shr_1_nonneg (m : Z) (r s : bool) :
  0 ≤ m →
  shr_1 (Build_shr_record m r s) = Build_shr_record (m / 2) (Z.odd m) (r || s).
Proof.
  intros Hm. rewrite <- Z.div2_div.
  destruct m as [|[p|p|]|]; try reflexivity. lia.
Qed.

Lemma mod_pow2_succ (P j : Z) :
  0 ≤ j →
  P mod 2 ^ (j + 1) = P mod 2 ^ j + 2 ^ j * Z.b2z (Z.testbit P j).
Proof.
  intros Hj. rewrite Z.pow_add_r, Z.pow_1_r by lia.
  rewrite Z.rem_mul_r by lia. f_equal. f_equal.
  rewrite Z.testbit_odd, Z.shiftr_div_pow2 by lia.
  rewrite Zmod_odd. by destruct (Z.odd _).
Qed.

(** After [j + 1] shifts the round bit is bit [j] of the mantissa and the
    sticky bit records whether a lower bit was set. *)
Lemma shr_iter (P : Z) (j : nat) :
  0 ≤ P →
  Nat.iter (S j) shr_1 (Build_shr_record P false false) =
  Build_shr_record (P / 2 ^ Z.of_nat (S j)) (Z.testbit P (Z.of_nat j))
                   (negb (P mod 2 ^ Z.of_nat j =? 0)).
Proof.
  intros HP. induction j as [|j IH].
  - change (Nat.iter 1 shr_1 ?x) with (shr_1 x). rewrite shr_1_nonneg by done.
    rewrite Z.bit0_odd. simpl Z.of_nat. rewrite Z.pow_0_r, Z.mod_1_r, Z.pow_1_r.
    reflexivity.
  - rewrite Nat.iter_succ, IH. rewrite shr_1_nonneg by (apply Z.div_pos; lia).
    f_equal.
    + rewrite Z.div_div by lia. f_equal.
      rewrite (Nat2Z.inj_succ (S j)), <- Z.add_1_r, Z.pow_add_r, Z.pow_1_r by lia. lia.
    + rewrite Z.testbit_odd, Z.shiftr_div_pow2 by lia. done.
    + rewrite (Nat2Z.inj_succ j), <- Z.add_1_r, mod_pow2_succ by lia.
      pose proof (Z.mod_pos_bound P (2 ^ Z.of_nat j)) as Hb.
      assert (0 < 2 ^ Z.of_nat j) as Hpow by lia.
      specialize (Hb Hpow).
      destruct (Z.testbit P (Z.of_nat j)); simpl Z.b2z.
      * simpl. symmetry. apply negb_true_iff, Z.eqb_neq. lia.
      * simpl. f_equal. f_equal. lia.
Qed.

(** Shifting by [k] and rounding on the round and sticky bits is rounding
    [P / 2 ^ k] to nearest, ties to even. *)
Lemma round_shr (P : Z) (k : positive) (e : Z) :
  0 ≤ P →
  let '(mrs, e') := shr (Build_shr_record P false false) e (Zpos k) in
  round_nearest_even (shr_m mrs) (loc_of_shr_record mrs) = rne P (Zpos k) ∧
  e' = e + Zpos k.
Proof.
  intros HP. simpl shr. split; [|done].
  rewrite iter_pos_nat.
  destruct (Pos2Nat.is_succ k) as [j Hj]. rewrite Hj, shr_iter by done.
  replace (Zpos k) with (Z.of_nat j + 1) by lia.
  replace (Z.of_nat (S j)) with (Z.of_nat j + 1) by lia.
  unfold rne. simpl shr_m. rewrite mod_pow2_succ by lia.
  assert (0 < 2 ^ Z.of_nat j) as Hpow by lia.
  pose proof (Z.mod_pos_bound P (2 ^ Z.of_nat j) Hpow) as Hb.
  rewrite (Z.pow_add_r _ _ 1), Z.pow_1_r by lia.
  destruct (Z.testbit P (Z.of_nat j)); simpl Z.b2z.
  - destruct (Z.eqb_spec (P mod 2 ^ Z.of_nat j) 0) as [Hz|Hnz]; simpl.
    + rewrite Hz. replace (2 * (0 + 2 ^ Z.of_nat j * 1) ?= 2 ^ Z.of_nat j * 2) with Eq; [done|].
      symmetry. apply Z.compare_eq_iff. lia.
    + replace (2 * (P mod 2 ^ Z.of_nat j + 2 ^ Z.of_nat j * 1) ?= 2 ^ Z.of_nat j * 2) with Gt; [done|].
      symmetry. apply Z.compare_gt_iff. lia.
  - replace (2 * (P mod 2 ^ Z.of_nat j + 2 ^ Z.of_nat j * 0) ?= 2 ^ Z.of_nat j * 2) with Lt.
    + by destruct (negb _).
    + symmetry. apply Z.compare_lt_iff. lia.
Qed.

Lemma rne_bounds (P k : Z) :
  P / 2 ^ k ≤ rne P k ≤ P / 2 ^ k + 1.
Proof.
  unfold rne. destruct (2 * (P mod 2 ^ k) ?= 2 ^ k); [|lia..].
  destruct (Z.even _); lia.
Qed.

Lemma fexp_unfold (g : Z) : fexp prec emax g = Z.max (g - 53) (-1074).
Proof. reflexivity. Qed.

Lemma shr_fexp_noshift (m e : Z) :
  fexp prec emax (Zdigits2 m + e) - e ≤ 0 →
  shr_fexp prec emax m e loc_Exact = (Build_shr_record m false false, e).
Proof.
  intros Hk. unfold shr_fexp, shr. simpl shr_record_of_loc.
  destruct (fexp prec emax (Zdigits2 m + e) - e); [done| lia | done].
Qed.

Lemma Zdigits2_le (p : positive) (n : Z) :
  0 ≤ n → Zpos p < 2 ^ n → Zdigits2 (Zpos p) ≤ n.
Proof.
  intros Hn Hlt. rewrite Zdigits2_log2.
  assert (Z.log2 (Zpos p) < n); [|lia].
  apply Z.log2_lt_pow2; lia.
Qed.

(** The rounding of the float library on an exact mantissa: no shift when
    the exponent is already the target one, else one rounding and, when
    the mantissa reaches [2 ^ 53], one renormalisation. *)
Lemma binary_round_aux_spec (s : bool) (p : positive) (e : Z) :
  let k := fexp prec emax (Zdigits2 (Zpos p) + e) - e in
  binary_round_aux prec emax s (Zpos p) e loc_Exact =
    if k <=? 0 then finish s (Zpos p) e
    else let m := rne (Zpos p) k in
         if m =? 2 ^ prec then finish s (2 ^ (prec - 1)) (e + k + 1)
         else finish s m (e + k).
Proof.
  intros k. unfold binary_round_aux.
  destruct (Z.leb_spec k 0) as [Hk|Hk].
  - rewrite shr_fexp_noshift by done. simpl shr_m. simpl loc_of_shr_record.
    simpl round_nearest_even. rewrite shr_fexp_noshift by done. done.
  - unfold shr_fexp at 1. fold k. simpl shr_record_of_loc.
    destruct k as [|kp|] eqn:Hkp; try lia.
    pose proof (round_shr (Zpos p) kp e) as Hshr.
    destruct (shr _ e (Zpos kp)) as [mrs e']. destruct Hshr as [Hm ->]; [lia|].
    rewrite Hm. clear Hm mrs. rewrite <- Hkp in *. clear Hkp kp.
    set (m := rne (Zpos p) k).
    pose proof (Zdigits2_bounds p) as Hd. pose proof (Zdigits2_pos p) as Hdpos.
    pose proof (rne_bounds (Zpos p) k) as Hrne. fold m in Hrne.
    assert (e + k = fexp prec emax (Zdigits2 (Zpos p) + e)) as HE by (unfold k; lia).
    pose proof (fexp_unfold (Zdigits2 (Zpos p) + e)) as Hfexp.
    assert (Zpos p / 2 ^ k < 2 ^ 53) as Hq.
    { apply Z.div_lt_upper_bound; [lia|]. rewrite <- Z.pow_add_r by lia.
      eapply Z.lt_le_trans; [apply Hd|]. apply Z.pow_le_mono_r; lia. }
    assert (0 ≤ Zpos p / 2 ^ k) as Hq0 by (apply Z.div_pos; lia).
    change (2 ^ prec) with (2 ^ 53). change (2 ^ (prec - 1)) with (2 ^ 52).
    destruct (Z.eqb_spec m (2 ^ 53)) as [Hcarry|Hnocarry].
    + rewrite Hcarry. unfold shr_fexp.
      replace (fexp prec emax (Zdigits2 (2 ^ 53) + (e + k)) - (e + k)) with 1
        by (rewrite fexp_unfold; change (Zdigits2 (2 ^ 53)) with 54; lia).
      reflexivity.
    + rewrite shr_fexp_noshift; [done|].
      rewrite fexp_unfold. destruct m as [|mp|] eqn:Hmp; [simpl; lia| |lia].
      pose proof (Zdigits2_le mp 53). lia.
Qed.

Lemma rne_scale (P k j : Z) :
  0 ≤ k → 0 ≤ j → rne (P * 2 ^ j) (k + j) = rne P k.
Proof.
  intros Hk Hj. unfold rne.
  assert (0 < 2 ^ j) by lia. assert (0 < 2 ^ k) by lia.
  rewrite Z.pow_add_r by lia.
  rewrite Z.div_mul_cancel_r by lia.
  rewrite Z.mul_mod_distr_r by lia.
  replace (2 * (P mod 2 ^ k * 2 ^ j) ?= 2 ^ k * 2 ^ j)
    with (2 * (P mod 2 ^ k) ?= 2 ^ k); [done|].
  rewrite Z.mul_assoc. apply Zmult_compare_compat_r. lia.
Qed.

Lemma rne_exact (P k : Z) : 0 ≤ k → rne (P * 2 ^ k) k = P.
Proof.
  intros Hk. pose proof (rne_scale P 0 k (Z.le_refl 0) Hk) as Hs.
  rewrite Z.add_0_l in Hs. rewrite Hs. unfold rne.
  rewrite Z.pow_0_r, Z.mod_1_r, Z.div_1_r. reflexivity.
Qed.

Lemma rne_mono (P P' k : Z) : 0 ≤ k → P ≤ P' → rne P k ≤ rne P' k.
Proof.
  intros Hk HP. assert (0 < 2 ^ k) as Hpow by lia.
  pose proof (Z.div_le_mono P P' (2 ^ k) Hpow HP) as Hq.
  pose proof (rne_bounds P k) as Hb. pose proof (rne_bounds P' k) as Hb'.
  destruct (decide (P / 2 ^ k = P' / 2 ^ k)) as [Heq|Hne]; [|lia].
  pose proof (Z.div_mod P (2 ^ k)) as HD. pose proof (Z.div_mod P' (2 ^ k)) as HD'.
  assert (P mod 2 ^ k ≤ P' mod 2 ^ k) as Hr by (rewrite Heq in HD; lia).
  unfold rne. rewrite <- Heq.
  destruct (Z.compare_spec (2 * (P mod 2 ^ k)) (2 ^ k));
    destruct (Z.compare_spec (2 * (P' mod 2 ^ k)) (2 ^ k));
    destruct (Z.even (P / 2 ^ k)); lia.
Qed.

Lemma rne_small (P k : Z) : 0 ≤ P → 2 * P < 2 ^ k → rne P k = 0.
Proof.
  intros HP Hlt. unfold rne.
  rewrite Z.mod_small, Z.div_small by lia.
  by destruct (Z.compare_spec (2 * P) (2 ^ k)); try lia.
Qed.

Lemma rne_nonneg (P k : Z) : 0 ≤ P → 0 ≤ rne P k.
Proof.
  intros HP. pose proof (rne_bounds P k).
  destruct (Z.le_gt_cases 0 k).
  - assert (0 ≤ P / 2 ^ k) by (apply Z.div_pos; lia). lia.
  - rewrite Z.pow_neg_r in * by lia. rewrite Z.div_0_r in *. lia.
Qed.

(** The same in units of [2 ^ u], which no longer depends on how the
    value is split into mantissa and exponent. *)
Lemma binary_round_aux_scaled (s : bool) (p : positive) (e u : Z) :
  u ≤ e → u ≤ -1074 →
  0 ≤ fexp prec emax (Zdigits2 (Zpos p) + e) - e →
  binary_round_aux prec emax s (Zpos p) e loc_Exact =
  round_float s u (Zpos p * 2 ^ (e - u)).
Proof.
  intros Hu Humin Hk. rewrite binary_round_aux_spec.
  unfold round_float, round_scaled.
  rewrite Z.log2_mul_pow2 by lia.
  replace (e - u + Z.log2 (Z.pos p) + 1 + u) with (Zdigits2 (Zpos p) + e)
    by (rewrite Zdigits2_log2; lia).
  set (E := fexp prec emax (Zdigits2 (Zpos p) + e)) in *.
  assert (-1074 ≤ E) as HE by (unfold E; rewrite fexp_unfold; lia).
  replace (E - u) with ((E - e) + (e - u)) by lia.
  rewrite rne_scale by lia.
  destruct (Z.leb_spec (E - e) 0) as [Hle|Hgt].
  - assert (E = e) as HEe by lia. rewrite HEe, Z.sub_diag.
    pose proof (rne_exact (Zpos p) 0 (Z.le_refl 0)) as Hex.
    rewrite Z.pow_0_r, Z.mul_1_r in Hex. rewrite Hex.
    destruct (Z.eqb_spec (Zpos p) (2 ^ prec)) as [Heq|]; [|done].
    exfalso. unfold E in HEe. rewrite fexp_unfold in HEe.
    pose proof (Zdigits2_log2 p) as Hd. rewrite Heq in Hd at 2.
    change (Z.log2 (2 ^ prec)) with 53 in Hd. lia.
  - replace (e + (E - e)) with E by lia. done.
Qed.

Lemma pos_iter_xO (m d : positive) :
  Zpos (Pos.iter xO m d) = Zpos m * 2 ^ Zpos d.
Proof.
  induction d as [|d IH] using Pos.peano_ind.
  - simpl. lia.
  - rewrite Pos.iter_succ, Pos2Z.inj_xO, IH, Pos2Z.inj_succ, Z.pow_succ_r by lia. lia.
Qed.

Lemma shl_align_spec (mx : positive) (ex ex' : Z) :
  let '(mz, ez) := shl_align mx ex ex' in
  ez = Z.min ex ex' ∧ Zpos mz = Zpos mx * 2 ^ (ex - ez).
Proof.
  unfold shl_align. destruct (ex' - ex) as [|d|d] eqn:Hd.
  - split; [lia|]. rewrite Z.sub_diag. lia.
  - split; [lia|]. rewrite Z.sub_diag. lia.
  - split; [lia|]. rewrite pos_iter_xO. f_equal. f_equal. lia.
Qed.

Lemma binary_round_scaled (s : bool) (p : positive) (e u : Z) :
  u ≤ e → u ≤ -1074 →
  binary_round prec emax s p e = round_float s u (Zpos p * 2 ^ (e - u)).
Proof.
  intros Hu Humin. unfold binary_round.
  pose proof (shl_align_spec p e (fexp prec emax (Zpos (digits2_pos p) + e))) as Hal.
  destruct (shl_align _ _ _) as [mz ez]. destruct Hal as [Hez Hmz].
  change (Zpos (digits2_pos p)) with (Zdigits2 (Zpos p)) in Hez.
  pose proof (fexp_unfold (Zdigits2 (Zpos p) + e)) as Hfexp.
  assert (Zdigits2 (Zpos mz) + ez = Zdigits2 (Zpos p) + e) as Hg.
  { rewrite !Zdigits2_log2, Hmz, Z.log2_mul_pow2 by lia. lia. }
  rewrite (binary_round_aux_scaled s mz ez u) by (rewrite ?Hg; lia).
  f_equal. rewrite Hmz, <- Z.mul_assoc, <- Z.pow_add_r by lia. f_equal. f_equal. lia.
Qed.

(** An int below [2 ^ 53] converts exactly. *)
Lemma float_of_int_small (n : Z) :
  0 < n < 2 ^ 53 →
  float_of_int n =
    Ok (S754_finite false (Z.to_pos (n * 2 ^ (52 - Z.log2 n))) (Z.log2 n - 52)).
Proof.
  intros Hn. unfold float_of_int. destruct n as [|p|]; try lia.
  unfold binary_normalize. rewrite (binary_round_scaled false p 0 (-1074)) by lia.
  unfold round_float, round_scaled.
  rewrite Z.log2_mul_pow2 by lia.
  pose proof (Z.log2_spec (Zpos p)) as Hlog. pose proof (Z.log2_nonneg (Zpos p)) as Hl0.
  assert (Z.log2 (Zpos p) < 53) as Hl53 by (apply Z.log2_lt_pow2; lia).
  rewrite fexp_unfold.
  replace (Z.max (0 - -1074 + Z.log2 (Z.pos p) + 1 + -1074 - 53) (-1074))
    with (Z.log2 (Zpos p) - 52) by lia.
  replace (Zpos p * 2 ^ (0 - -1074))
    with (Zpos p * 2 ^ (52 - Z.log2 (Zpos p)) * 2 ^ (Z.log2 (Z.pos p) - 52 - -1074))
    by (rewrite <- Z.mul_assoc, <- Z.pow_add_r by lia; f_equal; f_equal; lia).
  rewrite rne_exact by lia.
  assert (0 < 2 ^ (52 - Z.log2 (Zpos p))) as Hpow by lia.
  assert (Zpos p * 2 ^ (52 - Z.log2 (Zpos p)) < 2 ^ 53) as Hlt.
  { replace 53 with (Z.succ (Z.log2 (Zpos p)) + (52 - Z.log2 (Zpos p))) by lia.
    rewrite Z.pow_add_r by lia. apply Z.mul_lt_mono_pos_r; lia. }
  destruct (Z.eqb_spec (Zpos p * 2 ^ (52 - Z.log2 (Zpos p))) (2 ^ prec)) as [Heq|_].
  { change (2 ^ prec) with (2 ^ 53) in Heq. lia. }
  destruct (Zpos p * 2 ^ (52 - Z.log2 (Zpos p))) as [|q|] eqn:Hq; try lia.
  unfold finish. destruct (Z.leb_spec (Z.log2 (Zpos p) - 52) (emax - prec)) as [|Hbad].
  - done.
  - change (emax - prec) with 971 in Hbad. lia.
Qed.

(** Rounding to nearest is off by at most half a unit. *)
Lemma rne_error (P k : Z) :
  0 ≤ k → 2 * (rne P k * 2 ^ k) ≤ 2 * P + 2 ^ k.
Proof.
  intros Hk. assert (0 < 2 ^ k) as Hpow by lia.
  pose proof (Z.div_mod P (2 ^ k)) as HD.
  pose proof (Z.mod_pos_bound P (2 ^ k) Hpow) as Hr.
  unfold rne.
  destruct (Z.compare_spec (2 * (P mod 2 ^ k)) (2 ^ k));
    try destruct (Z.even _); nia.
Qed.

(** The index of line 114: for lengths below [2 ^ 50] the truncated
    binary64 product [n * 0.9] is [floor (9 n / 10)]. The double 0.9 exceeds
    9/10 by [2 / (10 * 2 ^ 53)], which together with the rounding of the
    product stays below the distance 1/10 to the next integer. *)
Lemma int_mul_float_0_9 (n : Z) :
  0 < n < 2 ^ 50 →
  int_mul_float n float_0_9 ≫= int_of_float = Ok (n * 9 / 10).
Proof.
  intros Hn. unfold int_mul_float. rewrite float_of_int_small by lia.
  rewrite !bind_Ok. unfold float_0_9, SFmul. simpl xorb.
  pose proof (Z.log2_spec n) as Hlog. pose proof (Z.log2_nonneg n) as Hl0.
  assert (Z.log2 n < 50) as Hl50 by (apply Z.log2_lt_pow2; lia).
  set (L := Z.log2 n) in *.
  set (M := 8106479329266893).
  assert (0 < 2 ^ (52 - L)) as Hpow by lia.
  assert (2 ^ 52 ≤ n * 2 ^ (52 - L) < 2 ^ 53) as HmT.
  { assert (2 ^ 52 = 2 ^ L * 2 ^ (52 - L)) as H52
      by (rewrite <- Z.pow_add_r by lia; f_equal; lia).
    assert (2 ^ 53 = 2 ^ Z.succ L * 2 ^ (52 - L)) as H53
      by (rewrite <- Z.pow_add_r by lia; f_equal; lia).
    split.
    - rewrite H52. apply Z.mul_le_mono_nonneg_r; lia.
    - rewrite H53. apply Z.mul_lt_mono_pos_r; lia. }
  assert (2 ^ 104 ≤ n * 2 ^ (52 - L) * M < 2 ^ 106) as Hprod by (unfold M; nia).
  assert (Zpos (Z.to_pos (n * 2 ^ (52 - L)) * 8106479329266893)
          = n * 2 ^ (52 - L) * M) as Hpp.
  { rewrite Pos2Z.inj_mul, !Z2Pos.id by (unfold M; lia). done. }
  assert (104 ≤ Z.log2 (n * 2 ^ (52 - L) * M)) as Hlp by (apply Z.log2_le_pow2; lia).
  rewrite (binary_round_aux_scaled _ _ _ (-1074)); cycle 1.
  { lia. } { lia. }
  { rewrite fexp_unfold, Zdigits2_log2, Hpp. lia. }
  rewrite Hpp.
  replace (n * 2 ^ (52 - L) * M * 2 ^ (L - 52 + -53 - -1074))
    with (n * M * 2 ^ 1021).
  2:{ replace (L - 52 + -53 - -1074) with (1021 - (52 - L)) by lia.
      replace (2 ^ 1021) with (2 ^ (52 - L) * 2 ^ (1021 - (52 - L))).
      - lia.
      - rewrite <- Z.pow_add_r by lia. f_equal. lia. }
  assert (2 ^ 52 ≤ n * M < 2 ^ 103) as HnM by (unfold M; lia).
  pose proof (Z.log2_spec (n * M)) as HlogG.
  assert (52 ≤ Z.log2 (n * M)) as HG0 by (apply Z.log2_le_pow2; lia).
  assert (Z.log2 (n * M) < 103) as HG1 by (apply Z.log2_lt_pow2; lia).
  unfold round_float, round_scaled.
  rewrite Z.log2_mul_pow2, fexp_unfold by lia.
  set (G := Z.log2 (n * M) - 52) in *.
  replace (Z.max (1021 + Z.log2 (n * M) + 1 + -1074 - 53) (-1074)) with (G - 53) by lia.
  replace (G - 53 - -1074) with (G + 1021) by lia.
  rewrite rne_scale by lia.
  set (m := rne (n * M) G).
  pose proof (rne_bounds (n * M) G) as Hb. fold m in Hb.
  pose proof (rne_error (n * M) G) as Herr. fold m in Herr.
  assert (0 < 2 ^ G) as HpG by lia.
  assert (0 < 2 ^ (53 - G)) as HpD by lia.
  assert (2 ^ G * 2 ^ (53 - G) = 2 ^ 53) as HGD
    by (rewrite <- Z.pow_add_r by lia; f_equal; lia).
  assert (2 ^ G ≤ 2 ^ 50) as HG50 by (apply Z.pow_le_mono_r; lia).
  assert (2 ^ 52 ≤ n * M / 2 ^ G) as Hq.
  { apply Z.div_le_lower_bound; [lia|]. rewrite <- Z.pow_add_r by lia.
    replace (G + 52) with (Z.log2 (n * M)) by lia. lia. }
  pose proof (Z.div_mod (n * 9) 10) as HK0.
  pose proof (Z.mod_pos_bound (n * 9) 10) as HK0r.
  set (K0 := n * 9 / 10) in *.
  assert (m / 2 ^ (53 - G) = K0) as Hres.
  { symmetry. apply Z.div_unique_pos with (r := m - K0 * 2 ^ (53 - G)); [|lia].
    split.
    - assert (K0 * 2 ^ (53 - G) ≤ n * M / 2 ^ G); [|lia].
      apply Z.div_le_lower_bound; [lia|]. unfold M in *. nia.
    - assert (m * 2 ^ G < (K0 + 1) * 2 ^ (53 - G) * 2 ^ G); [|nia].
      unfold M in *. nia. }
  destruct (Z.eqb_spec m (2 ^ prec)) as [Hcarry|Hnocarry].
  - change (2 ^ (prec - 1)) with 4503599627370496. unfold finish.
    destruct (Z.leb_spec (G - 53 + 1) (emax - prec)) as [|Hbad];
      [|change (emax - prec) with 971 in Hbad; lia].
    unfold int_of_float, cond_Zopp. f_equal. rewrite <- Hres, Hcarry.
    rewrite Z.shiftl_div_pow2 by lia.
    change (2 ^ prec) with (2 ^ 53). change (Z.pos 4503599627370496) with (2 ^ 52).
    replace (- (G - 53 + 1)) with (52 - G) by lia.
    rewrite <- !Z.pow_sub_r by lia. f_equal. lia.
  - destruct m as [|mp|] eqn:Hm; try lia. unfold finish.
    destruct (Z.leb_spec (G - 53) (emax - prec)) as [|Hbad];
      [|change (emax - prec) with 971 in Hbad; lia].
    unfold int_of_float, cond_Zopp. f_equal. rewrite <- Hres.
    rewrite Z.shiftl_div_pow2 by lia. f_equal. f_equal. lia.
Qed.

(** Far beyond any list that fits in memory the product is rounded up to
    the next integer: the bound on the length cannot be dropped. *)
Lemma int_mul_float_0_9_beyond :
  int_mul_float 1300000000000001 float_0_9 ≫= int_of_float
    = Ok 1170000000000001 ∧
  1300000000000001 * 9 / 10 = 1170000000000000.
Proof. split; reflexivity. Qed.

(** Mantissa, exponent and bounds of [round_scaled]. *)
Lemma round_scaled_bounds (u X : Z) :
  u ≤ -1074 → 0 < X →
  let '(m, E) := round_scaled u X in
  -1074 ≤ E ∧ Z.log2 X + u - 52 ≤ E ∧ 0 ≤ m ≤ 2 ^ 53 ∧
  (-1074 < E → E = Z.log2 X + u - 52 ∧ 2 ^ 52 ≤ m) ∧
  (Z.log2 X + u - 52 < E → m ≤ 2 ^ 52) ∧
  (Z.log2 X + u - 52 < E - 53 → m = 0).
Proof.
  intros Hu HX. unfold round_scaled. rewrite fexp_unfold.
  pose proof (Z.log2_spec X HX) as Hlog. pose proof (Z.log2_nonneg X) as Hl0.
  set (l := Z.log2 X) in *.
  set (E := Z.max (l + 1 + u - 53) (-1074)).
  assert (0 ≤ E - u) as HK by lia.
  pose proof (rne_bounds X (E - u)) as Hb.
  assert (0 < 2 ^ (E - u)) as Hpow by lia.
  assert (0 ≤ X / 2 ^ (E - u)) as Hq0 by (apply Z.div_pos; lia).
  assert (X / 2 ^ (E - u) < 2 ^ 53) as Hq53.
  { apply Z.div_lt_upper_bound; [lia|]. rewrite <- Z.pow_add_r by lia.
    eapply Z.lt_le_trans; [apply Hlog|]. apply Z.pow_le_mono_r; lia. }
  split; [lia|]. split; [lia|]. split; [lia|]. split; [|split].
  - intros HE. split; [lia|].
    assert (2 ^ 52 ≤ X / 2 ^ (E - u)); [|lia].
    apply Z.div_le_lower_bound; [lia|]. rewrite <- Z.pow_add_r by lia.
    replace (E - u + 52) with l by lia. lia.
  - intros HE. assert (X / 2 ^ (E - u) < 2 ^ 52); [|lia].
    apply Z.div_lt_upper_bound; [lia|]. rewrite <- Z.pow_add_r by lia.
    eapply Z.lt_le_trans; [apply Hlog|]. apply Z.pow_le_mono_r; lia.
  - intros HE. apply rne_small; [lia|].
    replace (2 * X) with (X * 2 ^ 1) by lia.
    assert (X * 2 ^ 1 < 2 ^ Z.succ l * 2 ^ 1) by lia.
    rewrite <- Z.pow_add_r in * by lia.
    eapply Z.lt_le_trans; [done|]. apply Z.pow_le_mono_r; lia.
Qed.

(** The value of [round_scaled], in units of [2 ^ u], grows with [X], and
    so does the exponent. *)
Lemma round_scaled_mono (u X1 X2 : Z) :
  u ≤ -1074 → 0 < X1 → X1 ≤ X2 →
  let '(m1, E1) := round_scaled u X1 in
  let '(m2, E2) := round_scaled u X2 in
  E1 ≤ E2 ∧ m1 * 2 ^ (E1 - u) ≤ m2 * 2 ^ (E2 - u) ∧ (E1 = E2 → m1 ≤ m2).
Proof.
  intros Hu HX1 HX12.
  pose proof (round_scaled_bounds u X1 Hu HX1) as B1.
  pose proof (round_scaled_bounds u X2 Hu ltac:(lia)) as B2.
  pose proof (Z.log2_le_mono X1 X2 HX12) as Hll.
  pose proof (Z.log2_spec X1 HX1) as Hlog1.
  pose proof (Z.log2_spec X2 ltac:(lia)) as Hlog2.
  pose proof (Z.log2_nonneg X1) as Hl1.
  unfold round_scaled in *. rewrite !fexp_unfold in *.
  set (l1 := Z.log2 X1) in *. set (l2 := Z.log2 X2) in *.
  set (E1 := Z.max (l1 + 1 + u - 53) (-1074)) in *.
  set (E2 := Z.max (l2 + 1 + u - 53) (-1074)) in *.
  assert (E1 ≤ E2) as HE by lia.
  split; [done|].
  destruct (decide (E1 = E2)) as [Heq|Hne].
  - assert (rne X1 (E1 - u) ≤ rne X2 (E2 - u)) as Hm
      by (rewrite <- Heq; apply rne_mono; lia).
    split; [|done]. rewrite <- Heq in *.
    apply Z.mul_le_mono_nonneg_r; lia.
  - split; [|done].
    destruct B1 as (_ & _ & Hm1 & _ & Hlow1 & Hzero1).
    destruct B2 as (_ & _ & Hm2 & Hnorm2 & _).
    destruct Hnorm2 as [HE2 Hm2'] ; [lia|].
    set (m1 := rne X1 (E1 - u)) in *. set (m2 := rne X2 (E2 - u)) in *.
    assert (2 ^ 52 * 2 ^ (E2 - u) ≤ m2 * 2 ^ (E2 - u)) as Hv2
      by (apply Z.mul_le_mono_nonneg_r; lia).
    eapply Z.le_trans; [|exact Hv2].
    rewrite <- Z.pow_add_r by lia.
    destruct (decide (l1 + u - 52 < E1 - 53)) as [Htiny|Hnt].
    { rewrite (Hzero1 Htiny). lia. }
    assert (m1 ≤ 2 ^ (l1 + 1 - (E1 - u))) as Hm1'.
    { pose proof (rne_bounds X1 (E1 - u)) as Hb. fold m1 in Hb.
      assert (X1 / 2 ^ (E1 - u) < 2 ^ (l1 + 1 - (E1 - u))); [|lia].
      apply Z.div_lt_upper_bound; [lia|]. rewrite <- Z.pow_add_r by lia.
      replace (E1 - u + (l1 + 1 - (E1 - u))) with (Z.succ l1) by lia. lia. }
    assert (m1 * 2 ^ (E1 - u) ≤ 2 ^ (l1 + 1 - (E1 - u)) * 2 ^ (E1 - u)) as Hv1
      by (apply Z.mul_le_mono_nonneg_r; lia).
    eapply Z.le_trans; [exact Hv1|].
    rewrite <- Z.pow_add_r by lia. apply Z.pow_le_mono_r; lia.
Qed.

Lemma float_lt_int_iff (f : spec_float) (v : Z) :
  float_lt_int f v = true ↔ float_compare_int f v = Some Lt.
Proof.
  unfold float_lt_int. destruct (float_compare_int f v) as [[]|]; split; congruence.
Qed.

Lemma Some_compare_lt (x y : Z) : Some (x ?= y) = Some Lt ↔ x < y.
Proof.
  rewrite <- Z.compare_lt_iff. split; [by intros [= ->] | by intros ->].
Qed.

(** [f < v] for a non-negative float given by mantissa and exponent, with
    both sides counted in units of [2 ^ u]. *)
Lemma float_lt_int_finish (m e u v : Z) :
  0 ≤ m → u ≤ e → u ≤ 0 →
  float_lt_int (finish false m e) v = true ↔
  (m = 0 ∧ 0 < v) ∨ (0 < m ∧ e ≤ 971 ∧ m * 2 ^ (e - u) < v * 2 ^ (- u)).
Proof.
  intros Hm Hue Hu. rewrite float_lt_int_iff. unfold finish.
  destruct m as [|p|]; [| |lia].
  - unfold float_compare_int. rewrite Some_compare_lt.
    split; [by left | intros [[_ ?]|[? _]]; lia].
  - change (emax - prec) with 971.
    destruct (Z.leb_spec e 971) as [He|He]; unfold float_compare_int, cond_Zopp.
    2:{ split; [done|]. intros [[? _]|(_ & ? & _)]; lia. }
    assert (0 < 2 ^ (- u)) as Hpu by lia.
    destruct (Z.leb_spec 0 e) as [He0|He0]; rewrite Some_compare_lt.
    + assert (2 ^ (e - u) = 2 ^ e * 2 ^ (- u)) as ->
        by (rewrite <- Z.pow_add_r by lia; f_equal; lia).
      assert (0 < 2 ^ e) by lia.
      split; [intros Hlt; right; repeat split; try lia; nia|].
      intros [[? _]|(_ & _ & ?)]; [lia | nia].
    + assert (2 ^ (- u) = 2 ^ (- e) * 2 ^ (e - u)) as ->
        by (rewrite <- Z.pow_add_r by lia; f_equal; lia).
      assert (0 < 2 ^ (- e)) by lia. assert (0 < 2 ^ (e - u)) by lia.
      split; [intros Hlt; right; repeat split; try lia; nia|].
      intros [[? _]|(_ & _ & ?)]; [lia | nia].
Qed.

Lemma round_float_final (s : bool) (u X : Z) :
  round_float s u X = finish s (round_final u X).1 (round_final u X).2.
Proof.
  unfold round_float, round_final. destruct (round_scaled u X) as [m E].
  by destruct (m =? 2 ^ prec).
Qed.

Lemma round_final_mono (u X1 X2 : Z) :
  u ≤ -1074 → 0 < X1 → X1 ≤ X2 →
  let '(m1, E1) := round_final u X1 in
  let '(m2, E2) := round_final u X2 in
  0 ≤ m1 ∧ 0 ≤ m2 ∧ u ≤ E1 ∧ u ≤ E2 ∧
  m1 * 2 ^ (E1 - u) ≤ m2 * 2 ^ (E2 - u) ∧ (0 < m1 → E1 ≤ E2).
Proof.
  intros Hu HX1 HX12.
  pose proof (round_scaled_bounds u X1 Hu HX1) as B1.
  pose proof (round_scaled_bounds u X2 Hu ltac:(lia)) as B2.
  pose proof (round_scaled_mono u X1 X2 Hu HX1 HX12) as Hmono.
  unfold round_final.
  destruct (round_scaled u X1) as [m1 E1]. destruct (round_scaled u X2) as [m2 E2].
  destruct B1 as (HE1 & HlE1 & Hm1 & Hnorm1 & Hsub1 & _).
  destruct B2 as (HE2 & HlE2 & Hm2 & Hnorm2 & Hsub2 & _).
  destruct Hmono as (HE & Hv & Hsame).
  change (2 ^ prec) with (2 ^ 53). change (2 ^ (prec - 1)) with (2 ^ 52).
  assert (∀ E, u ≤ E → 2 ^ 52 * 2 ^ (E + 1 - u) = 2 ^ 53 * 2 ^ (E - u)) as Hcarry.
  { intros E HuE. rewrite <- !Z.pow_add_r by lia. f_equal. lia. }
  destruct (Z.eqb_spec m1 (2 ^ 53)) as [Hc1|Hc1];
    destruct (Z.eqb_spec m2 (2 ^ 53)) as [Hc2|Hc2];
    rewrite ?Hcarry by lia; subst;
    (split; [lia|]); (split; [lia|]); (split; [lia|]); (split; [lia|]);
    (split; [done|]); intros Hpos; lia.
Qed.

(** Rounding is monotone, as far as a comparison with an int can tell. *)
Lemma round_float_mono (u X1 X2 v : Z) :
  u ≤ -1074 → 0 < X1 → X1 ≤ X2 →
  float_lt_int (round_float false u X2) v = true →
  float_lt_int (round_float false u X1) v = true.
Proof.
  intros Hu HX1 HX12. rewrite !round_float_final.
  pose proof (round_final_mono u X1 X2 Hu HX1 HX12) as Hmono.
  destruct (round_final u X1) as [m1 E1]. destruct (round_final u X2) as [m2 E2].
  destruct Hmono as (Hm1 & Hm2 & HE1 & HE2 & Hv & HE). simpl.
  rewrite (float_lt_int_finish m2 E2 u v), (float_lt_int_finish m1 E1 u v) by lia.
  assert (0 < 2 ^ (E1 - u)) by lia. assert (0 < 2 ^ (E2 - u)) by lia.
  assert (0 < 2 ^ (- u)) by lia.
  intros [[-> Hv0]|(Hpos2 & He2 & Hlt)].
  - left. split; [nia | done].
  - destruct (decide (m1 = 0)) as [->|Hnz].
    + left. split; [done|]. nia.
    + right. split; [lia|]. split; [lia|]. lia.
Qed.

(** ** Canonical floats *)

Lemma canonical_mantissa_spec (m : positive) (e : Z) :
  canonical_mantissa prec emax m e = true ↔
  Z.log2 (Zpos m) ≤ 52 ∧ -1074 ≤ e ∧ (Z.log2 (Zpos m) = 52 ∨ e = -1074).
Proof.
  unfold canonical_mantissa.
  change (Zpos (digits2_pos m)) with (Zdigits2 (Zpos m)).
  rewrite Zdigits2_log2, fexp_unfold, Z.eqb_eq. lia.
Qed.

Lemma canonical_bounds (m : positive) (e : Z) :
  canonical_mantissa prec emax m e = true →
  Zpos m < 2 ^ 53 ∧ (-1074 < e → 2 ^ 52 ≤ Zpos m).
Proof.
  rewrite canonical_mantissa_spec. intros (Hl & He & Hn).
  pose proof (Z.log2_spec (Zpos m) ltac:(lia)) as Hlog. split.
  - eapply Z.lt_le_trans; [apply Hlog|]. apply Z.pow_le_mono_r; lia.
  - intros Hgt. destruct Hn as [Hn|]; [|lia]. rewrite Hn in Hlog. lia.
Qed.

(** A rounded value is a zero, an infinity or a canonical finite float. *)
Lemma round_float_cases (s : bool) (u X : Z) :
  u ≤ -1074 → 0 < X →
  round_float s u X = S754_zero s ∨ round_float s u X = S754_infinity s ∨
  ∃ m e, round_float s u X = S754_finite s m e ∧
         canonical_mantissa prec emax m e = true ∧ e ≤ 971.
Proof.
  intros Hu HX. unfold round_float.
  pose proof (round_scaled_bounds u X Hu HX) as B.
  destruct (round_scaled u X) as [m E].
  destruct B as (HE & HlE & Hm & Hnorm & Hsub & _).
  change (2 ^ prec) with (2 ^ 53). change (2 ^ (prec - 1)) with 4503599627370496.
  change (emax - prec) with 971. unfold finish. change (emax - prec) with 971.
  destruct (Z.eqb_spec m (2 ^ 53)) as [Hc|Hc].
  - destruct (Z.leb_spec (E + 1) 971); [|by right; left].
    right; right. eexists _, _. split; [done|]. split; [|done].
    apply canonical_mantissa_spec. change (Z.log2 4503599627370496) with 52. lia.
  - destruct m as [|p|]; [by left| |lia].
    destruct (Z.leb_spec E 971); [|by right; left].
    right; right. eexists _, _. split; [done|]. split; [|done].
    apply canonical_mantissa_spec.
    assert (Z.log2 (Zpos p) < 53) by (apply Z.log2_lt_pow2; lia).
    split; [lia|]. split; [lia|].
    destruct (decide (-1074 < E)) as [Hn|Hn]; [|lia].
    left. destruct (Hnorm Hn) as [_ Hlow].
    assert (52 ≤ Z.log2 (Zpos p)) by (apply Z.log2_le_pow2; lia). lia.
Qed.

(** A positive int converts to a positive canonical float. *)
Lemma float_of_int_pos (n : Z) (f : spec_float) :
  0 < n → float_of_int n = Ok f →
  ∃ m e, f = S754_finite false m e ∧
         canonical_mantissa prec emax m e = true ∧ e ≤ 971.
Proof.
  intros Hn. unfold float_of_int. destruct n as [|p|]; try lia.
  unfold binary_normalize. rewrite (binary_round_scaled false p 0 (-1074)) by lia.
  destruct (round_float_cases false (-1074) (Zpos p * 2 ^ (0 - -1074)))
    as [Hz|[Hi|(m & e & Hf & Hcan & He)]]; [lia|lia|..].
  - exfalso. revert Hz. unfold round_float.
    pose proof (round_scaled_bounds (-1074) (Zpos p * 2 ^ (0 - -1074))) as B.
    destruct (round_scaled _ _) as [m E].
    destruct B as (HE & HlE & Hm & Hnorm & _); [lia..|].
    rewrite Z.log2_mul_pow2 in * by lia.
    pose proof (Z.log2_nonneg (Zpos p)).
    destruct Hnorm as [_ Hlow]; [lia|].
    change (2 ^ (prec - 1)) with 4503599627370496. unfold finish.
    destruct (m =? 2 ^ prec); [by destruct (_ <=? _)|].
    destruct m; [lia| |lia]. by destruct (_ <=? _).
  - rewrite Hi. done.
  - rewrite Hf. intros [= <-]. eauto.
Qed.

(** The product of two canonical floats is the rounding of the exact
    product. *)
Lemma SFmul_scaled (s1 s2 : bool) (m1 m2 : positive) (e1 e2 u : Z) :
  canonical_mantissa prec emax m1 e1 = true →
  canonical_mantissa prec emax m2 e2 = true →
  u ≤ e1 + e2 → u ≤ -1074 →
  SFmul prec emax (S754_finite s1 m1 e1) (S754_finite s2 m2 e2) =
  round_float (xorb s1 s2) u (Zpos m1 * Zpos m2 * 2 ^ (e1 + e2 - u)).
Proof.
  rewrite !canonical_mantissa_spec. intros (Hl1 & He1 & Hn1) (Hl2 & He2 & Hn2) Hu Hu'.
  unfold SFmul. rewrite (binary_round_aux_scaled _ _ _ u); [done|lia|lia|].
  rewrite Zdigits2_log2, fexp_unfold, Pos2Z.inj_mul.
  pose proof (Z.log2_mul_below (Zpos m1) (Zpos m2)).
  pose proof (Z.log2_nonneg (Zpos m1)). pose proof (Z.log2_nonneg (Zpos m2)).
  lia.
Qed.

(** On canonical positive floats [<=] is the order of the values. *)
Lemma SFleb_scaled (ma mb : positive) (ea eb u : Z) :
  canonical_mantissa prec emax ma ea = true →
  canonical_mantissa prec emax mb eb = true →
  SFleb (S754_finite false ma ea) (S754_finite false mb eb) = true →
  u ≤ ea → u ≤ eb →
  Zpos ma * 2 ^ (ea - u) ≤ Zpos mb * 2 ^ (eb - u).
Proof.
  intros Ha Hb Hle Hua Hub.
  pose proof (canonical_bounds _ _ Ha) as [Ha53 _].
  pose proof (canonical_bounds _ _ Hb) as [_ Hb52].
  apply canonical_mantissa_spec in Ha as (_ & Hea & _).
  unfold SFleb, SFcompare in Hle.
  destruct (Z.compare_spec ea eb) as [->|Hlt|Hgt]; [| |done].
  - apply Z.mul_le_mono_nonneg_r; [lia|].
    rewrite Pos.compare_cont_spec in Hle. simpl in Hle.
    destruct (Pos.compare_spec ma mb); try done; lia.
  - specialize (Hb52 ltac:(lia)).
    assert (0 < 2 ^ (ea - u)) by lia.
    assert (2 ^ 53 * 2 ^ (ea - u) ≤ 2 ^ 52 * 2 ^ (eb - u)) as Hpow.
    { rewrite <- !Z.pow_add_r by lia. apply Z.pow_le_mono_r; lia. }
    assert (0 < 2 ^ (eb - u)) by lia. nia.
Qed.

(** ** Thresholds *)

Lemma valid_finite (s : bool) (m : positive) (e : Z) :
  valid_binary prec emax (S754_finite s m e) = true →
  canonical_mantissa prec emax m e = true ∧ e ≤ 971.
Proof.
  unfold valid_binary, bounded. intros [Hc He]%andb_true_iff.
  split; [done|]. apply Z.leb_le in He. exact He.
Qed.

Lemma finish_finite (s : bool) (m : positive) (e : Z) :
  e ≤ 971 → finish s (Zpos m) e = S754_finite s m e.
Proof.
  intros He. unfold finish. change (emax - prec) with 971.
  by destruct (Z.leb_spec e 971); [|lia].
Qed.

Lemma float_lt_int_negative (u X v : Z) :
  u ≤ -1074 → 0 < X → 1 ≤ v →
  float_lt_int (round_float true u X) v = true.
Proof.
  intros Hu HX Hv.
  destruct (round_float_cases true u X Hu HX) as [->|[->|(m & e & -> & _)]];
    rewrite float_lt_int_iff; unfold float_compare_int, cond_Zopp;
    rewrite ?Some_compare_lt; try done; try lia.
  destruct (0 <=? e); rewrite Some_compare_lt.
  - assert (0 ≤ 2 ^ e) by (apply Z.pow_nonneg; lia). nia.
  - assert (0 ≤ 2 ^ (- e)) by (apply Z.pow_nonneg; lia). nia.
Qed.

Lemma scaled_product_pos (a b : positive) (k : Z) :
  0 ≤ k → 0 < Zpos a * Zpos b * 2 ^ k.
Proof. intros Hk. apply Z.mul_pos_pos; [lia|]. by apply Z.pow_pos_nonneg. Qed.

(** For a positive finite [t], the product [t * a] grows with [a], as far as
    an int [v ≥ 1] can tell. *)
Lemma mul_threshold_mono (mT : positive) (eT : Z) (a b : spec_float) (v : Z) :
  canonical_mantissa prec emax mT eT = true →
  valid_binary prec emax a = true → valid_binary prec emax b = true →
  SFleb a b = true → 1 ≤ v →
  float_lt_int (SFmul prec emax (S754_finite false mT eT) b) v = true →
  float_lt_int (SFmul prec emax (S754_finite false mT eT) a) v = true.
Proof.
  intros HT Ha Hb Hle Hv.
  destruct a as [sa|sa| |sa ma ea]; [by destruct v| | by destruct b|].
  - destruct sa; [done|]. by destruct b as [|[]| |].
  - apply valid_finite in Ha as [Hca Hea].
    destruct sa.
    { intros _. rewrite (SFmul_scaled _ _ _ _ _ _ (Z.min (-1074) (eT + ea))) by (done || lia).
      simpl xorb. apply float_lt_int_negative; [lia| |done].
      apply scaled_product_pos. lia. }
    destruct b as [sb|sb| |sb mb eb]; [done|by destruct sb|done|].
    destruct sb; [done|].
    apply valid_finite in Hb as [Hcb Heb].
    set (u := Z.min (-1074) (Z.min (eT + ea) (eT + eb))).
    rewrite !(SFmul_scaled _ _ _ _ _ _ u) by (done || lia). simpl xorb.
    apply round_float_mono; [lia|apply scaled_product_pos; lia|].
    pose proof (SFleb_scaled ma mb ea eb (u - eT) Hca Hcb Hle ltac:(lia) ltac:(lia)) as Hab.
    replace (ea - (u - eT)) with (eT + ea - u) in Hab by lia.
    replace (eb - (u - eT)) with (eT + eb - u) in Hab by lia.
    rewrite <- !Z.mul_assoc. apply Z.mul_le_mono_nonneg_l; lia.
Qed.

(** For thresholds [a ≤ b] that are not below 1, an int above [b] is
    above [a]. *)
Lemma direct_threshold_mono (a b : spec_float) (v : Z) :
  valid_binary prec emax a = true → valid_binary prec emax b = true →
  SFleb a b = true → float_lt_int a 1 = false →
  float_lt_int b v = true → float_lt_int a v = true.
Proof.
  intros Ha Hb Hle Hreg.
  destruct a as [sa|sa| |sa ma ea]; [done| | by destruct b |].
  - destruct sa; [done|]. by destruct b as [|[]| |].
  - destruct sa.
    { exfalso. revert Hreg. apply not_false_iff_true.
      rewrite float_lt_int_iff. unfold float_compare_int, cond_Zopp.
      destruct (0 <=? ea); rewrite Some_compare_lt.
      - assert (0 ≤ 2 ^ ea) by (apply Z.pow_nonneg; lia). nia.
      - assert (0 ≤ 2 ^ (- ea)) by (apply Z.pow_nonneg; lia). nia. }
    destruct b as [sb|sb| |sb mb eb]; [done|by destruct sb|done|].
    destruct sb; [done|].
    apply valid_finite in Ha as [Hca Hea]. apply valid_finite in Hb as [Hcb Heb].
    set (u := Z.min 0 (Z.min ea eb)).
    rewrite <- (finish_finite false ma ea), <- (finish_finite false mb eb) by done.
    rewrite (float_lt_int_finish _ _ u v), (float_lt_int_finish _ _ u v) by lia.
    pose proof (SFleb_scaled ma mb ea eb u Hca Hcb Hle ltac:(lia) ltac:(lia)).
    intros [[? _]|(_ & _ & Hlt)]; [lia|]. right. repeat split; lia.
Qed.

(** ** Count tables *)

Lemma sum_values_ge (counts : gmap string nat) (k : string) (v : nat) :
  counts !! k = Some v → (v ≤ sum_values counts)%nat.
Proof.
  unfold sum_values. revert k v.
  apply (map_fold_weak_ind (λ r (m : gmap string nat),
           ∀ k v, m !! k = Some v → (v ≤ r)%nat)).
  - intros k v Hk. by rewrite lookup_empty in Hk.
  - intros i x m r Hi IH k v Hk.
    destruct (decide (i = k)) as [->|Hne].
    + rewrite lookup_insert_eq in Hk. injection Hk as ->. lia.
    + rewrite lookup_insert_ne in Hk by done. specialize (IH k v Hk). lia.
Qed.

(** Below [2 ^ 1023] the conversion of an int does not overflow. *)
Lemma float_of_int_total (n : Z) :
  0 ≤ n < 2 ^ 1023 → ∃ f, float_of_int n = Ok f.
Proof.
  intros Hn. unfold float_of_int. destruct n as [|p|]; [by eexists| |lia].
  unfold binary_normalize. rewrite (binary_round_scaled false p 0 (-1074)) by lia.
  rewrite round_float_final. unfold round_final.
  pose proof (round_scaled_bounds (-1074) (Zpos p * 2 ^ (0 - -1074))) as B.
  destruct (round_scaled _ _) as [m E].
  destruct B as (HE & HlE & Hm & Hnorm & Hsub & _); [lia..|].
  rewrite Z.log2_mul_pow2 in * by lia.
  pose proof (Z.log2_nonneg (Zpos p)).
  assert (Z.log2 (Zpos p) < 1023) by (apply Z.log2_lt_pow2; lia).
  destruct Hnorm as [HEl _]; [lia|].
  change (2 ^ (prec - 1)) with 4503599627370496. change (emax - prec) with 971.
  destruct (m =? 2 ^ prec); simpl; unfold finish; change (emax - prec) with 971.
  - destruct (Z.leb_spec (E + 1) 971); [by eexists | lia].
  - destruct m; [by eexists| |by eexists].
    destruct (Z.leb_spec E 971); [by eexists | lia].
Qed.

(** On a table of positive counts, a larger [min_count] of the same regime
    retains a subset. *)
Lemma filtered_counts_mono (counts : gmap string nat) (a b : spec_float) :
  map_Forall (λ _ v, 0 < v)%nat counts →
  valid_binary prec emax a = true → valid_binary prec emax b = true →
  SFleb a b = true → float_lt_int a 1 = float_lt_int b 1 →
  match filtered_counts counts a, filtered_counts counts b with
  | Ok fa, Ok fb => fb ⊆ fa
  | Raise ea, Raise eb => ea = eb
  | _, _ => False
  end.
Proof.
  intros Hpos Ha Hb Hle Hreg. unfold filtered_counts. rewrite <- Hreg.
  destruct (float_lt_int a 1) eqn:Hra.
  - unfold int_mul_float.
    destruct (float_of_int (Z.of_nat (sum_values counts))) as [t|e] eqn:Ht; [|done].
    rewrite !bind_Ok. unfold filter_counts.
    apply map_filter_subseteq_ext. intros k v Hk. simpl.
    unfold int_gt_float. rewrite !Is_true_true.
    pose proof (Hpos k v Hk) as Hv. simpl in Hv.
    pose proof (sum_values_ge counts k v Hk) as Hsum.
    assert (0 < Z.of_nat (sum_values counts)) as Htot by lia.
    destruct (float_of_int_pos _ t Htot Ht) as (mT & eT & -> & HcT & _).
    apply mul_threshold_mono; try done. lia.
  - unfold filter_counts. apply map_filter_subseteq_ext. intros k v Hk. simpl.
    unfold int_gt_float. rewrite !Is_true_true.
    by apply direct_threshold_mono.
Qed.

Lemma get_haplotype_counts_positive bam positions counts :
  get_haplotype_counts bam positions = Ok counts →
  map_Forall (λ _ v, 0 < v)%nat counts.
Proof.
  unfold get_haplotype_counts. intros Hc.
  destruct (py_index positions 0); [simpl in Hc|done].
  destruct (py_min positions); [simpl in Hc|done].
  destruct (py_max positions); [simpl in Hc|done].
  destruct (foldM _ _ _) as [l|]; [simpl in Hc|done].
  injection Hc as <-. intros k v Hk. by eapply Counter_positive.
Qed.

(** C3 (as amended). For a fixed alignment file and marker set, and for
    [min_count] values [a ≤ b] that are both below 1 or both not below 1,
    the retained count at [b] is at most the retained count at [a]; when
    the count fails, it fails alike for both. *)
Theorem retained_count_monotone_within_regime (bam : AlignmentFile)
    (positions : list GenomePosition) (a b : spec_float) :
  valid_binary prec emax a = true → valid_binary prec emax b = true →
  SFleb a b = true → float_lt_int a 1 = float_lt_int b 1 →
  match get_num_haplotype bam positions a, get_num_haplotype bam positions b with
  | Ok na, Ok nb => (nb ≤ na)%nat
  | Raise ea, Raise eb => ea = eb
  | _, _ => False
  end.
Proof.
  intros Ha Hb Hle Hreg. unfold get_num_haplotype.
  destruct (get_haplotype_counts bam positions) as [counts|e] eqn:Hc; [|done].
  rewrite !bind_Ok.
  pose proof (filtered_counts_mono counts a b
    (get_haplotype_counts_positive _ _ _ Hc) Ha Hb Hle Hreg) as Hmono.
  destruct (filtered_counts counts a) as [fa|ea], (filtered_counts counts b) as [fb|eb];
    try done.
  simpl. by apply map_subseteq_size.
Qed.

Lemma retained_count_monotone_within_regime_witness :
  let bam := bam_of [matching_read "1" 0 "AAA" quals_30;
                     matching_read "1" 0 "AAA" quals_30;
                     matching_read "1" 0 "AAT" quals_30] in
  let positions := [snp "1" 1; snp "1" 2; snp "1" 3] in
  valid_binary prec emax float_0_1 = true ∧ valid_binary prec emax float_0_5 = true ∧
  SFleb float_0_1 float_0_5 = true ∧
  float_lt_int float_0_1 1 = float_lt_int float_0_5 1 ∧
  match get_num_haplotype bam positions float_0_1,
        get_num_haplotype bam positions float_0_5 with
  | Ok na, Ok nb => (nb ≤ na)%nat
  | Raise ea, Raise eb => ea = eb
  | _, _ => False
  end.
Proof.
  intros bam positions.
  assert (valid_binary prec emax float_0_1 = true) as Ha by reflexivity.
  assert (valid_binary prec emax float_0_5 = true) as Hb by reflexivity.
  assert (SFleb float_0_1 float_0_5 = true) as Hle by reflexivity.
  assert (float_lt_int float_0_1 1 = float_lt_int float_0_5 1) as Hreg by reflexivity.
  split; [exact Ha|]. split; [exact Hb|]. split; [exact Hle|]. split; [exact Hreg|].
  exact (retained_count_monotone_within_regime bam positions _ _ Ha Hb Hle Hreg).
Defined.

(** C3, the claim as written fails: with two reads for each of two
    allele combinations, [min_count = 0.5] is a fraction and retains
    nothing above [4 * 0.5 = 2], and the larger [min_count = 1.0] is an
    absolute threshold and retains both combinations. *)
Lemma retained_count_not_monotone_across_regimes :
  let bam := bam_of [matching_read "1" 0 "AAA" quals_30;
                     matching_read "1" 0 "AAA" quals_30;
                     matching_read "1" 0 "AAT" quals_30;
                     matching_read "1" 0 "AAT" quals_30] in
  let positions := [snp "1" 1; snp "1" 2; snp "1" 3] in
  SFleb float_0_5 float_1 = true ∧
  get_num_haplotype bam positions float_0_5 = Ok 0%nat ∧
  get_num_haplotype bam positions float_1 = Ok 2%nat.
Proof. repeat split. Qed.

(** The constants are the doubles Python computes for these literals. *)
Lemma float_constants :
  float_of_int 1 = Ok float_1 ∧ float_of_int 10 = Ok float_10 ∧
  SFdiv prec emax float_1 float_10 = float_0_1 ∧
  (x ← float_of_int 2; Ok (SFdiv prec emax float_1 x)) = Ok float_0_5 ∧
  (x ← float_of_int 9; Ok (SFdiv prec emax x float_10)) = Ok float_0_9 ∧
  (x ← float_of_int 18; Ok (SFdiv prec emax x float_10)) = Ok float_1_8.
Proof. repeat split. Qed.

(** The threshold of line 64 is the rounded product: [100 * 0.57] is below
    57, so that a count of 57 out of 100 is above it, and [10 * 0.3] is 3,
    so that a count of 3 out of 10 is not. *)
Lemma threshold_is_rounded_product :
  (x ← float_of_int 57; y ← float_of_int 100; Ok (SFdiv prec emax x y))
    = Ok float_0_57 ∧
  int_mul_float 100 float_0_57 = Ok float_56_99 ∧
  int_gt_float 57 float_56_99 = true ∧
  (x ← float_of_int 3; y ← float_of_int 10; Ok (SFdiv prec emax x y))
    = Ok float_0_3 ∧
  int_mul_float 10 float_0_3 = Ok float_3 ∧
  int_gt_float 3 float_3 = false.
Proof. repeat split. Qed.

(** The MOI is the element of rank [floor (9 n / 10)] of the sorted list. *)
Lemma summarise_rank (l : list nat) :
  l ≠ [] → Z.of_nat (length l) < 2 ^ 50 →
  ∃ r, summarise l = Ok r ∧
       merge_sort (≤)%nat l !! (length l * 9 / 10)%nat = Some (moi r).
Proof.
  intros Hne Hlen. unfold summarise.
  pose proof (Permutation_length (merge_sort_Permutation (≤)%nat l)) as Hperm.
  set (s := merge_sort (≤)%nat l) in *. rewrite Hperm.
  assert (0 < Z.of_nat (length l)) as Hpos by (destruct l; [done | simpl; lia]).
  pose proof (int_mul_float_0_9 (Z.of_nat (length l)) ltac:(lia)) as Hidx.
  destruct (int_mul_float _ _) as [x|]; [|by simpl in Hidx].
  rewrite bind_Ok in Hidx. rewrite bind_Ok, Hidx, bind_Ok.
  assert (Z.of_nat (length l) * 9 / 10 = Z.of_nat (length l * 9 / 10)) as ->
    by (rewrite Nat2Z.inj_div, Nat2Z.inj_mul; done).
  unfold py_index. destruct (Z.ltb_spec (Z.of_nat (length l * 9 / 10)) 0); [lia|].
  destruct (Z.ltb_spec (Z.of_nat (length l * 9 / 10)) 0); [lia|].
  rewrite Nat2Z.id.
  destruct (lookup_lt_is_Some_2 s (length l * 9 / 10)) as [x' Hx'].
  { rewrite Hperm. apply Nat.Div0.div_lt_upper_bound. lia. }
  rewrite Hx'. rewrite bind_Ok. by eexists.
Qed.

(** C1. For a non-empty ascending sequence of retained counts, of
    fewer than [2 ^ 50] elements, the result holds as MOI the element of
    0-based rank [floor (n * 9 / 10)]: the index [int(n * 0.9)], computed
    in binary64, is that rank. The same holds of [main] for the sorted
    positive retained counts of its marker sets, and the sequence
    [1,1,2,2,2,3,4,5,8,9] yields 9. *)
Theorem moi_is_rank_of_sorted_counts (counts : list nat) :
  Sorted (≤)%nat counts → counts ≠ [] → Z.of_nat (length counts) < 2 ^ 50 →
  (∃ r, summarise counts = Ok r ∧
        counts !! (length counts * 9 / 10)%nat = Some (moi r)) ∧
  (∀ bam vcf min_count maxdist ns,
     retained_counts bam min_count (get_triplets vcf maxdist) ns →
     merge_sort (≤)%nat (filter (λ n, 0 < n)%nat ns) = counts →
     ∃ r, main bam vcf min_count maxdist = Ok r ∧
          counts !! (length counts * 9 / 10)%nat = Some (moi r)) ∧
  moi <$> summarise [1; 1; 2; 2; 2; 3; 4; 5; 8; 9]%nat = Ok 9%nat.
Proof.
  intros Hsorted Hne Hlen. split; [|split].
  - destruct (summarise_rank counts Hne Hlen) as (r & Hr & Hrank).
    exists r. split; [done|].
    rewrite (Sorted_unique (≤)%nat (merge_sort (≤)%nat counts) counts) in Hrank;
      [done|apply Sorted_merge_sort, _|done|apply merge_sort_Permutation].
  - intros bam vcf min_count maxdist ns Hns Hcounts.
    rewrite (main_unfold _ _ _ _ _ Hns).
    pose proof (Permutation_length
      (merge_sort_Permutation (≤)%nat (filter (λ n, 0 < n)%nat ns))) as Hperm.
    rewrite Hcounts in Hperm.
    destruct (summarise_rank (filter (λ n, 0 < n)%nat ns)) as (r & Hr & Hrank).
    + intros Hnil. rewrite Hnil in Hperm. by destruct counts.
    + by rewrite <- Hperm.
    + exists r. split; [done|]. by rewrite Hcounts, <- Hperm in Hrank.
  - vm_compute. reflexivity.
Qed.

Lemma moi_is_rank_of_sorted_counts_witness :
  let counts := [1; 1; 2; 2; 2; 3; 4; 5; 8; 9]%nat in
  Sorted (≤)%nat counts ∧ counts ≠ [] ∧ Z.of_nat (length counts) < 2 ^ 50 ∧
  (∃ r, summarise counts = Ok r ∧
        counts !! (length counts * 9 / 10)%nat = Some (moi r)) ∧
  (∀ bam vcf min_count maxdist ns,
     retained_counts bam min_count (get_triplets vcf maxdist) ns →
     merge_sort (≤)%nat (filter (λ n, 0 < n)%nat ns) = counts →
     ∃ r, main bam vcf min_count maxdist = Ok r ∧
          counts !! (length counts * 9 / 10)%nat = Some (moi r)) ∧
  moi <$> summarise [1; 1; 2; 2; 2; 3; 4; 5; 8; 9]%nat = Ok 9%nat.
Proof.
  intros counts.
  assert (Sorted (≤)%nat counts) as Hs by (apply (bool_decide_unpack _); vm_compute; exact I).
  assert (counts ≠ []) as Hne by discriminate.
  assert (Z.of_nat (length counts) < 2 ^ 50) as Hlen by (vm_compute; reflexivity).
  split; [exact Hs|]. split; [exact Hne|]. split; [exact Hlen|].
  exact (moi_is_rank_of_sorted_counts counts Hs Hne Hlen).
Defined.



(** * Further properties *)

(** ** The order of GenomePosition *)

(** X1. [<] on positions is defined exactly on one chromosome, where it is
    a strict total order: across chromosomes it raises [ValueError] in both
    directions; on one chromosome exactly one of [a < b], [a = b] and
    [b < a] holds; and it is transitive. *)
Theorem GenomePosition_lt_strict_order (a b c : GenomePosition) :
  (chrom a ≠ chrom b →
     GenomePosition_lt a b = Raise ValueError ∧
     GenomePosition_lt b a = Raise ValueError) ∧
  (chrom a = chrom b →
     (GenomePosition_lt a b = Ok true ∧ GenomePosition_lt b a = Ok false ∧ a ≠ b) ∨
     (GenomePosition_lt a b = Ok false ∧ GenomePosition_lt b a = Ok false ∧ a = b) ∨
     (GenomePosition_lt a b = Ok false ∧ GenomePosition_lt b a = Ok true ∧ a ≠ b)) ∧
  (GenomePosition_lt a b = Ok true → GenomePosition_lt b c = Ok true →
     GenomePosition_lt a c = Ok true).
Proof.
  split; [|split].
  - intros Hne. split; apply GenomePosition_lt_cross; congruence.
  - intros Heq. rewrite (GenomePosition_lt_same a b), (GenomePosition_lt_same b a) by done.
    destruct (Z.ltb_spec (pos a) (pos b)), (Z.ltb_spec (pos b) (pos a)); try lia.
    + left. repeat split. intros ->. lia.
    + right; right. repeat split. intros ->. lia.
    + right; left. repeat split. destruct a, b; simpl in *. f_equal; [done|lia].
  - unfold GenomePosition_lt. intros Hab Hbc.
    destruct (String.eqb_spec (chrom a) (chrom b)) as [Eab|]; [|done].
    destruct (String.eqb_spec (chrom b) (chrom c)) as [Ebc|]; [|done].
    simpl in Hab, Hbc. injection Hab as Hab. injection Hbc as Hbc.
    rewrite Eab, Ebc, String.eqb_refl. simpl.
    f_equal. apply Z.ltb_lt. apply Z.ltb_lt in Hab, Hbc. lia.
Qed.

(** ** get_triplets *)

Lemma companions_length_3 snps p maxdist :
  length (companions snps p maxdist) = 3%nat ↔
  (3 ≤ length (filter (λ q, GenomeRange_contains (anchor_range p maxdist) q) snps))%nat.
Proof. unfold companions. rewrite length_take. lia. Qed.

Lemma get_triplets_nil (vcf : list VariantRecord) (maxdist : Z) :
  maxdist < 0 ∨ (length vcf < 3)%nat → get_triplets vcf maxdist = [].
Proof.
  intros Hcase. destruct (get_triplets vcf maxdist) as [|t ts] eqn:Ht; [done|].
  exfalso. assert (t ∈ get_triplets vcf maxdist) as Hin by (rewrite Ht; left).
  apply get_triplets_elem in Hin as (p & Hp & -> & Hlen).
  destruct Hcase as [Hneg|Hshort].
  - destruct (companions (snp_positions_of vcf) p maxdist) as [|q l] eqn:Hc; [done|].
    assert (q ∈ companions (snp_positions_of vcf) p maxdist) as Hq by (rewrite Hc; left).
    apply companions_elem in Hq as (_ & _ & ? & ?). lia.
  - pose proof (sublist_length _ _ (companions_sublist (snp_positions_of vcf) p maxdist)) as Hle.
    unfold snp_positions_of in Hle at 2. rewrite length_fmap in Hle. lia.
Qed.

(** X2. With a negative [maxdist], or with fewer than three variant
    records, no marker set is emitted, and [main] ends in the [IndexError]
    of the subscript on the empty list of counts. *)
Theorem get_triplets_empty (vcf : list VariantRecord) (maxdist : Z) :
  maxdist < 0 ∨ (length vcf < 3)%nat →
  get_triplets vcf maxdist = [] ∧
  ∀ bam min_count, main bam vcf min_count maxdist = Raise IndexError.
Proof.
  intros Hnil%get_triplets_nil. split; [done|]. intros bam min_count.
  unfold main. rewrite Hnil. reflexivity.
Qed.

Lemma get_triplets_empty_witness :
  let vcf := [variant "1" 100; variant "1" 150] in
  (500 < 0 ∨ (length vcf < 3)%nat) ∧
  get_triplets vcf 500 = [] ∧
  ∀ bam min_count, main bam vcf min_count 500 = Raise IndexError.
Proof.
  intros vcf.
  assert (500 < 0 ∨ (length vcf < 3)%nat) as Hcase by (right; simpl; lia).
  split; [exact Hcase|]. exact (get_triplets_empty vcf 500 Hcase).
Defined.

Lemma length_omap_le {A B} (f : A → option B) (l : list A) :
  (length (omap f l) ≤ length l)%nat.
Proof. induction l as [|x l IH]; csimpl; [done|]. destruct (f x); simpl; lia. Qed.

Lemma get_triplets_length (vcf : list VariantRecord) (maxdist : Z) :
  (length (get_triplets vcf maxdist) ≤ length vcf)%nat.
Proof.
  unfold get_triplets. etrans; [apply length_omap_le|].
  unfold snp_positions_of. by rewrite length_fmap.
Qed.

(** X3. Whatever the order of the input, there is at most one marker set
    per variant record, and every marker set has three positions that
    occur in the input in that order. *)
Theorem get_triplets_bounded (vcf : list VariantRecord) (maxdist : Z) :
  (length (get_triplets vcf maxdist) ≤ length vcf)%nat ∧
  ∀ t, t ∈ get_triplets vcf maxdist →
    length t = 3%nat ∧ t `sublist_of` snp_positions_of vcf.
Proof.
  split; [apply get_triplets_length|].
  intros t (p & _ & -> & Hlen)%get_triplets_elem. split; [done|].
  apply companions_sublist.
Qed.

(** Monotonicity in [maxdist]. *)

Lemma window_mono p d d' q :
  d ≤ d' →
  GenomeRange_contains (anchor_range p d) q = true →
  GenomeRange_contains (anchor_range p d') q = true.
Proof.
  rewrite !GenomeRange_contains_spec. simpl. intros ? (? & ? & ?).
  split; [done|lia].
Qed.

Lemma length_filter_mono {A} (P Q : A → Prop) `{∀ x, Decision (P x)}
    `{∀ x, Decision (Q x)} (l : list A) :
  (∀ x, P x → Q x) → (length (filter P l) ≤ length (filter Q l))%nat.
Proof.
  intros HPQ. induction l as [|x l IH]; simpl; [done|].
  rewrite !filter_cons. destruct (decide (P x)) as [HP|HP].
  - rewrite decide_True by auto. simpl. lia.
  - destruct (decide (Q x)); simpl; lia.
Qed.

Lemma length_omap_mono {A B} (f g : A → option B) (l : list A) :
  (∀ x, is_Some (f x) → is_Some (g x)) →
  (length (omap f l) ≤ length (omap g l))%nat.
Proof.
  intros Hfg. induction l as [|x l IH]; csimpl; [done|].
  destruct (f x) eqn:Hf.
  - destruct (Hfg x) as [y ->]; [by rewrite Hf|]. simpl. lia.
  - destruct (g x); simpl; lia.
Qed.

Lemma filter_nil_Forall {A} (P : A → Prop) `{∀ x, Decision (P x)} (l : list A) :
  Forall (λ x, ¬ P x) l → filter P l = [].
Proof.
  induction 1 as [|x l Hx _ IH]; [done|]. by rewrite filter_cons, decide_False.
Qed.

(** On a sorted list a wider window lists the same positions first. *)
Lemma window_prefix (l : list GenomePosition) p d d' :
  d ≤ d' → sorted_within_chrom l →
  filter (λ q, GenomeRange_contains (anchor_range p d) q) l `prefix_of`
  filter (λ q, GenomeRange_contains (anchor_range p d') q) l.
Proof.
  intros Hd. induction 1 as [|x l Hsorted IH Hx]; [done|].
  rewrite !filter_cons.
  destruct (decide (GenomeRange_contains (anchor_range p d) x)) as [Hin|Hout].
  - rewrite decide_True by (apply Is_true_true; eapply window_mono; [done|];
      by apply Is_true_true).
    by apply prefix_cons.
  - destruct (decide (GenomeRange_contains (anchor_range p d') x)) as [Hin'|Hout']; [|done].
    rewrite filter_nil_Forall; [apply prefix_nil|].
    apply Is_true_true, GenomeRange_contains_spec in Hin' as (Hc & Hlo & _).
    rewrite Is_true_true, GenomeRange_contains_spec in Hout. simpl in *.
    eapply Forall_impl; [exact Hx|]. intros y Hxy.
    rewrite Is_true_true, GenomeRange_contains_spec. simpl. intros (Hcy & _ & ?).
    unfold same_chrom_le in Hxy. apply Hout. split; [done|]. split; [done|].
    assert (pos x ≤ pos y) by (apply Hxy; congruence). lia.
Qed.

Lemma prefix_take_eq {A} (l k : list A) (n : nat) :
  l `prefix_of` k → (n ≤ length l)%nat → take n k = take n l.
Proof. intros [k' ->] Hn. by rewrite take_app_le. Qed.

(** X4. A larger [maxdist] never gives fewer marker sets, and on an input
    ascending within each chromosome every marker set of the smaller
    [maxdist] is a marker set of the larger one. *)
Theorem get_triplets_maxdist_monotone (vcf : list VariantRecord) (d d' : Z) :
  d ≤ d' →
  (length (get_triplets vcf d) ≤ length (get_triplets vcf d'))%nat ∧
  (sorted_within_chrom (snp_positions_of vcf) →
     ∀ t, t ∈ get_triplets vcf d → t ∈ get_triplets vcf d').
Proof.
  intros Hd. split.
  - unfold get_triplets. apply length_omap_mono. intros p. simpl.
    destruct (decide (length (companions (snp_positions_of vcf) p d) = 3%nat))
      as [Hlen|]; [intros _|by intros [? ?]].
    rewrite decide_True; [done|].
    apply companions_length_3. apply companions_length_3 in Hlen.
    etrans; [exact Hlen|]. apply length_filter_mono. intros q.
    rewrite !Is_true_true. by apply window_mono.
  - intros Hsorted t Ht. unfold get_triplets in *.
    apply list_elem_of_omap in Ht as (p & Hp & Ht). apply list_elem_of_omap.
    exists p. split; [done|]. simpl in *.
    destruct (decide (length (companions (snp_positions_of vcf) p d) = 3%nat))
      as [Hlen|]; [|done].
    injection Ht as <-.
    assert (companions (snp_positions_of vcf) p d' = companions (snp_positions_of vcf) p d)
      as ->; [|by rewrite decide_True].
    unfold companions. apply prefix_take_eq; [by apply window_prefix|].
    by apply companions_length_3.
Qed.

Lemma get_triplets_maxdist_monotone_witness :
  let vcf := [variant "1" 100; variant "1" 150; variant "1" 200; variant "1" 900] in
  100 ≤ 500 ∧
  (length (get_triplets vcf 100) ≤ length (get_triplets vcf 500))%nat ∧
  (sorted_within_chrom (snp_positions_of vcf) →
     ∀ t, t ∈ get_triplets vcf 100 → t ∈ get_triplets vcf 500).
Proof.
  intros vcf. assert (100 ≤ 500) as Hd by lia.
  split; [exact Hd|]. exact (get_triplets_maxdist_monotone vcf 100 500 Hd).
Defined.

(** Strictly sorted input: the anchor opens its triplet. *)

Lemma strictly_sorted_NoDup (l : list GenomePosition) :
  strictly_sorted_within_chrom l → NoDup l.
Proof.
  induction 1 as [|x l _ IH Hx]; constructor; [|done].
  intros Hin. rewrite Forall_forall in Hx. specialize (Hx x Hin eq_refl). lia.
Qed.

Lemma companions_anchor_first (l : list GenomePosition) p maxdist :
  strictly_sorted_within_chrom l → p ∈ l → 0 ≤ maxdist →
  ∃ rest, companions l p maxdist = p :: rest.
Proof.
  intros Hsorted (l1 & l2 & ->)%list_elem_of_split Hd.
  unfold companions. rewrite filter_app, filter_cons.
  pose proof (λ x1 x2, StronglySorted_app_1_elem_of same_chrom_lt l1 (p :: l2) x1 x2 Hsorted)
    as Hcross.
  rewrite (filter_nil_Forall _ l1).
  - rewrite decide_True; [simpl; eauto|].
    apply Is_true_true, GenomeRange_contains_spec. simpl. split; [done|lia].
  - apply Forall_forall. intros q Hq.
    rewrite Is_true_true, GenomeRange_contains_spec. simpl. intros (Hc & ? & _).
    assert (pos q < pos p); [|lia].
    apply (Hcross q p); [done|left|done].
Qed.

Lemma NoDup_omap_inj {A B} (f : A → option B) (l : list A) :
  (∀ x y z, x ∈ l → y ∈ l → f x = Some z → f y = Some z → x = y) →
  NoDup l → NoDup (omap f l).
Proof.
  intros Hinj. induction 1 as [|x l Hx _ IH]; csimpl; [constructor|].
  destruct (f x) as [z|] eqn:Hfx.
  - constructor.
    + intros (y & Hy & Hfy)%list_elem_of_omap.
      apply Hx. rewrite (Hinj x y z); [done|left|by right|done|done].
    + apply IH. intros ????? ; apply Hinj; by right.
  - apply IH. intros ????? ; apply Hinj; by right.
Qed.

(** X5. On an input strictly ascending within each chromosome, every marker
    set starts with the anchor it was built for, and no marker set is
    emitted twice. *)
Theorem get_triplets_anchored (vcf : list VariantRecord) (maxdist : Z) :
  strictly_sorted_within_chrom (snp_positions_of vcf) →
  NoDup (get_triplets vcf maxdist) ∧
  ∀ t, t ∈ get_triplets vcf maxdist →
    ∃ p rest, t = p :: rest ∧ p ∈ snp_positions_of vcf ∧
              t = companions (snp_positions_of vcf) p maxdist.
Proof.
  intros Hsorted.
  assert (∀ p t, p ∈ snp_positions_of vcf →
            t = companions (snp_positions_of vcf) p maxdist → length t = 3%nat →
            ∃ rest, t = p :: rest) as Hanchor.
  { intros p t Hp -> Hlen. apply companions_anchor_first; [done|done|].
    destruct (companions (snp_positions_of vcf) p maxdist) as [|q rest] eqn:Hc; [done|].
    assert (q ∈ companions (snp_positions_of vcf) p maxdist) as Hq by (rewrite Hc; left).
    apply companions_elem in Hq as (_ & _ & ? & ?). lia. }
  split.
  - unfold get_triplets. apply NoDup_omap_inj; [|by apply strictly_sorted_NoDup].
    intros p p' t Hp Hp'. simpl.
    repeat case_decide; try done. intros [= Ht] [= Ht'].
    destruct (Hanchor p t) as [rest Hr]; [done..|by rewrite <- Ht|].
    destruct (Hanchor p' t) as [rest' Hr']; [done..|by rewrite <- Ht'|].
    congruence.
  - intros t (p & Hp & Ht & Hlen)%get_triplets_elem.
    destruct (Hanchor p t Hp Ht Hlen) as [rest ->]. eauto.
Qed.

Lemma get_triplets_anchored_witness :
  let vcf := [variant "1" 100; variant "1" 150; variant "2" 120; variant "1" 200;
              variant "1" 900] in
  strictly_sorted_within_chrom (snp_positions_of vcf) ∧
  NoDup (get_triplets vcf 500) ∧
  ∀ t, t ∈ get_triplets vcf 500 →
    ∃ p rest, t = p :: rest ∧ p ∈ snp_positions_of vcf ∧
              t = companions (snp_positions_of vcf) p 500.
Proof.
  intros vcf.
  assert (strictly_sorted_within_chrom (snp_positions_of vcf)) as Hsorted
    by (apply (bool_decide_unpack _); vm_compute; exact I).
  split; [exact Hsorted|]. exact (get_triplets_anchored vcf 500 Hsorted).
Defined.

(** ** min and max of positions of one chromosome *)

Lemma min_step_same m y :
  chrom y = chrom m → min_step m y = Ok (if pos y <? pos m then y else m).
Proof. intros Hc. unfold min_step. by rewrite GenomePosition_lt_same. Qed.

Lemma max_step_same m y :
  chrom y = chrom m → max_step m y = Ok (if pos m <? pos y then y else m).
Proof. intros Hc. unfold max_step. by rewrite GenomePosition_lt_same. Qed.

Lemma min_loop_same l : ∀ m,
  Forall (λ x, chrom x = chrom m) l →
  ∃ lo, foldM min_step m l = Ok lo ∧ lo ∈ m :: l ∧ chrom lo = chrom m ∧
        ∀ x, x ∈ m :: l → pos lo ≤ pos x.
Proof.
  induction l as [|y l IH]; intros m Hall.
  - exists m. simpl. repeat split; [left|]. intros x ->%list_elem_of_singleton. lia.
  - apply Forall_cons in Hall as [Hy Hall]. rewrite foldM_cons.
    rewrite min_step_same, bind_Ok by done.
    destruct (Z.ltb_spec (pos y) (pos m)) as [Hlt|Hge].
    + destruct (IH y) as (lo & -> & Hin & Hc & Hmin).
      { eapply Forall_impl; [exact Hall|]. simpl. congruence. }
      exists lo. repeat split; [by right|congruence|].
      intros x [->|Hx]%elem_of_cons; [|by apply Hmin].
      specialize (Hmin y (list_elem_of_here _ _)). lia.
    + destruct (IH m Hall) as (lo & -> & Hin & Hc & Hmin).
      exists lo. repeat split; [|done|].
      * apply elem_of_cons in Hin as [->|Hin]; [left|by do 2 right].
      * intros x [->|[->|Hx]%elem_of_cons]%elem_of_cons.
        -- apply Hmin. left.
        -- specialize (Hmin m (list_elem_of_here _ _)). lia.
        -- apply Hmin. by right.
Qed.

Lemma max_loop_same l : ∀ m,
  Forall (λ x, chrom x = chrom m) l →
  ∃ hi, foldM max_step m l = Ok hi ∧ hi ∈ m :: l ∧ chrom hi = chrom m ∧
        ∀ x, x ∈ m :: l → pos x ≤ pos hi.
Proof.
  induction l as [|y l IH]; intros m Hall.
  - exists m. simpl. repeat split; [left|]. intros x ->%list_elem_of_singleton. lia.
  - apply Forall_cons in Hall as [Hy Hall]. rewrite foldM_cons.
    rewrite max_step_same, bind_Ok by done.
    destruct (Z.ltb_spec (pos m) (pos y)) as [Hlt|Hge].
    + destruct (IH y) as (hi & -> & Hin & Hc & Hmax).
      { eapply Forall_impl; [exact Hall|]. simpl. congruence. }
      exists hi. repeat split; [by right|congruence|].
      intros x [->|Hx]%elem_of_cons; [|by apply Hmax].
      specialize (Hmax y (list_elem_of_here _ _)). lia.
    + destruct (IH m Hall) as (hi & -> & Hin & Hc & Hmax).
      exists hi. repeat split; [|done|].
      * apply elem_of_cons in Hin as [->|Hin]; [left|by do 2 right].
      * intros x [->|[->|Hx]%elem_of_cons]%elem_of_cons.
        -- apply Hmax. left.
        -- specialize (Hmax m (list_elem_of_here _ _)). lia.
        -- apply Hmax. by right.
Qed.

Lemma get_haplotype_counts_unfold bam positions p0 lo hi :
  py_index positions 0 = Ok p0 → py_min positions = Ok lo → py_max positions = Ok hi →
  get_haplotype_counts bam positions =
    Counter <$> foldM (count_read positions) [] (fetch bam (chrom p0) (pos lo) (pos hi)).
Proof.
  intros H0 Hlo Hhi. unfold get_haplotype_counts. rewrite H0, Hlo, Hhi. simpl.
  by destruct (foldM _ _ _).
Qed.

Lemma min_max_same_chrom (positions : list GenomePosition) (c : string) :
  positions ≠ [] → Forall (λ p, chrom p = c) positions →
  ∃ p0 lo hi, py_index positions 0 = Ok p0 ∧ chrom p0 = c ∧
    py_min positions = Ok lo ∧ py_max positions = Ok hi ∧
    lo ∈ positions ∧ hi ∈ positions ∧
    (∀ p, p ∈ positions → pos lo ≤ pos p ≤ pos hi).
Proof.
  destruct positions as [|p0 l]; [done|]. intros _ Hall.
  apply Forall_cons in Hall as [Hp0 Hall].
  assert (Forall (λ x, chrom x = chrom p0) l) as Hall'.
  { eapply Forall_impl; [exact Hall|]. simpl. congruence. }
  destruct (min_loop_same l p0 Hall') as (lo & Hlo & Hlo_in & _ & Hmin).
  destruct (max_loop_same l p0 Hall') as (hi & Hhi & Hhi_in & _ & Hmax).
  exists p0, lo, hi. simpl. repeat split; try done.
  - by apply Hmin.
  - by apply Hmax.
Qed.

(** X6. On a non-empty list of positions of one chromosome, [min] and
    [max] do not raise and return a position of the list with the smallest
    and the largest coordinate, and [get_haplotype_counts] counts the reads
    fetched from that chromosome between these two coordinates. *)
Theorem py_min_max_same_chrom (positions : list GenomePosition) (c : string) :
  positions ≠ [] → Forall (λ p, chrom p = c) positions →
  ∃ lo hi, py_min positions = Ok lo ∧ py_max positions = Ok hi ∧
    lo ∈ positions ∧ hi ∈ positions ∧
    (∀ p, p ∈ positions → pos lo ≤ pos p ≤ pos hi) ∧
    ∀ bam, get_haplotype_counts bam positions =
             Counter <$> foldM (count_read positions) [] (fetch bam c (pos lo) (pos hi)).
Proof.
  intros Hne Hall.
  destruct (min_max_same_chrom positions c Hne Hall)
    as (p0 & lo & hi & Hp0 & Hc & Hlo & Hhi & Hlo_in & Hhi_in & Hbounds).
  exists lo, hi. split; [done|]. split; [done|]. split; [done|]. split; [done|].
  split; [done|]. intros bam.
  by rewrite (get_haplotype_counts_unfold bam positions p0 lo hi), Hc.
Qed.

Lemma py_min_max_same_chrom_witness :
  let positions := [snp "1" 150; snp "1" 100; snp "1" 200] in
  positions ≠ [] ∧ Forall (λ p, chrom p = "1"%string) positions ∧
  ∃ lo hi, py_min positions = Ok lo ∧ py_max positions = Ok hi ∧
    lo ∈ positions ∧ hi ∈ positions ∧
    (∀ p, p ∈ positions → pos lo ≤ pos p ≤ pos hi) ∧
    ∀ bam, get_haplotype_counts bam positions =
             Counter <$> foldM (count_read positions) []
                           (fetch bam "1"%string (pos lo) (pos hi)).
Proof.
  intros positions.
  assert (positions ≠ []) as Hne by done.
  assert (Forall (λ p, chrom p = "1"%string) positions) as Hall
    by (repeat constructor).
  split; [exact Hne|]. split; [exact Hall|].
  exact (py_min_max_same_chrom positions "1"%string Hne Hall).
Defined.

(** X7. For every marker set that [get_triplets] emits, [min] and [max] in
    [get_haplotype_counts] do not raise, and the reads are fetched from the
    anchor's chromosome between two coordinates of the anchor's window. *)
Theorem triplet_fetch_interval (vcf : list VariantRecord) (maxdist : Z)
    (t : list GenomePosition) :
  t ∈ get_triplets vcf maxdist →
  ∃ p lo hi, p ∈ snp_positions_of vcf ∧
    py_min t = Ok lo ∧ py_max t = Ok hi ∧
    pos p ≤ pos lo ∧ pos lo ≤ pos hi ∧ pos hi ≤ pos p + maxdist ∧
    ∀ bam, get_haplotype_counts bam t =
             Counter <$> foldM (count_read t) [] (fetch bam (chrom p) (pos lo) (pos hi)).
Proof.
  intros (p & Hp & Ht & Hlen)%get_triplets_elem.
  destruct (min_max_same_chrom t (chrom p))
    as (p0 & lo & hi & Hp0 & Hc & Hlo & Hhi & Hlo_in & Hhi_in & Hb).
  - by destruct t.
  - apply Forall_forall. intros q Hq. rewrite Ht in Hq.
    by apply companions_elem in Hq as (_ & ? & _).
  - exists p, lo, hi. repeat split; try done.
    + rewrite Ht in Hlo_in. apply companions_elem in Hlo_in as (_ & _ & ? & _). lia.
    + specialize (Hb lo Hlo_in). lia.
    + rewrite Ht in Hhi_in. apply companions_elem in Hhi_in as (_ & _ & _ & ?). lia.
    + intros bam. by rewrite (get_haplotype_counts_unfold bam t p0 lo hi), Hc.
Qed.

Lemma triplet_fetch_interval_witness :
  let vcf := [variant "1" 100; variant "1" 150; variant "1" 200; variant "1" 900] in
  let t := [snp "1" 100; snp "1" 150; snp "1" 200] in
  t ∈ get_triplets vcf 500 ∧
  ∃ p lo hi, p ∈ snp_positions_of vcf ∧
    py_min t = Ok lo ∧ py_max t = Ok hi ∧
    pos p ≤ pos lo ∧ pos lo ≤ pos hi ∧ pos hi ≤ pos p + 500 ∧
    ∀ bam, get_haplotype_counts bam t =
             Counter <$> foldM (count_read t) [] (fetch bam (chrom p) (pos lo) (pos hi)).
Proof.
  intros vcf t.
  assert (t ∈ get_triplets vcf 500) as Ht
    by (unfold vcf, t; rewrite get_triplets_example; left).
  split; [exact Ht|]. exact (triplet_fetch_interval vcf 500 t Ht).
Defined.

(** ** Completeness of the allele caller *)

Lemma get_alleles_step_keeps read positions alleles pair alleles' p :
  get_alleles_step read positions alleles pair = Ok alleles' →
  is_Some (alleles !! p) → is_Some (alleles' !! p).
Proof.
  intros [->|(rp & rf & nt & q & c & _ & _ & _ & _ & ->)]%get_alleles_step_Ok Hp; [done|].
  apply lookup_insert_is_Some'. by right.
Qed.

Lemma get_alleles_step_hit read positions alleles rp rf nt q alleles' :
  {| chrom := reference_name read; pos := rf + 1 |} ∈ positions →
  subscript (query_qualities read) rp = Ok q → 12 ≤ q →
  get_alleles_step read positions alleles (Some rp, Some rf, Some nt) = Ok alleles' →
  is_Some (alleles' !! {| chrom := reference_name read; pos := rf + 1 |}).
Proof.
  intros Hin Hq Hge. unfold get_alleles_step. rewrite bind_Ok.
  rewrite bool_decide_eq_true_2 by done. simpl negb. cbv iota.
  rewrite Hq, bind_Ok. destruct (Z.ltb_spec q 12) as [|_]; [lia|].
  destruct (if islower nt then _ else _) as [c|]; [|done].
  rewrite bind_Ok. intros [= <-]. apply lookup_insert_is_Some'. by left.
Qed.

Lemma get_alleles_loop_complete read positions p pairs : ∀ acc alleles,
  foldM (get_alleles_step read positions) acc pairs = Ok alleles →
  p ∈ positions →
  is_Some (acc !! p) ∨
    (∃ rp rf nt q, (Some rp, Some rf, Some nt) ∈ pairs ∧
       p = {| chrom := reference_name read; pos := rf + 1 |} ∧
       subscript (query_qualities read) rp = Ok q ∧ 12 ≤ q) →
  is_Some (alleles !! p).
Proof.
  induction pairs as [|pair pairs IH]; intros acc alleles Hloop Hp Hcase.
  - injection Hloop as <-. destruct Hcase as [|(? & ? & ? & ? & []%elem_of_nil & _)]; done.
  - rewrite foldM_cons in Hloop.
    destruct (get_alleles_step read positions acc pair) as [acc'|] eqn:Hstep; [|done].
    rewrite bind_Ok in Hloop. apply (IH acc' alleles Hloop Hp).
    destruct Hcase as [Hacc|(rp & rf & nt & q & Hin & -> & Hq & Hge)].
    + left. by eapply get_alleles_step_keeps.
    + apply elem_of_cons in Hin as [<-|Hin].
      * left. by eapply get_alleles_step_hit.
      * right. by exists rp, rf, nt, q.
Qed.

(** X8. When [get_alleles] returns, the call at a target position is a base
    exactly when some aligned pair of the read, neither insertion nor
    deletion, lies on the position with a base quality of at least 12. *)
Theorem get_alleles_complete (read : AlignedSegment) (positions : list GenomePosition)
    (calls : list (option ascii)) (i : nat) (p : GenomePosition) :
  get_alleles read positions = Ok calls → positions !! i = Some p →
  (∃ c, calls !! i = Some (Some c)) ↔ (∃ read_pos read_nt, observed_at read p read_pos read_nt).
Proof.
  unfold get_alleles. intros Hcalls Hi.
  destruct (foldM _ _ _) as [alleles|] eqn:Hloop; [|done].
  rewrite bind_Ok in Hcalls. injection Hcalls as <-.
  rewrite list_lookup_fmap, Hi. simpl. split.
  - intros [c [= Hc]].
    destruct (get_alleles_loop_Ok _ _ _ _ _ _ _ Hloop Hc)
      as [Hempty|(rp & rf & nt & q & Hin & -> & Hq & Hge & _)]; [done|].
    exists rp, nt, rf, q. done.
  - intros (rp & nt & rf & q & Hin & -> & Hq & Hge).
    destruct (get_alleles_loop_complete read positions
                {| chrom := reference_name read; pos := rf + 1 |} _ _ _ Hloop) as [c Hc].
    + by eapply list_elem_of_lookup_2.
    + right. by exists rp, rf, nt, q.
    + exists c. by rewrite Hc.
Qed.


Lemma get_alleles_complete_witness :
  let read := indel_mismatch_read (Some [30; 30; 11]) in
  let positions := [snp "1" 1; snp "1" 2; snp "1" 3] in
  let calls := [Some "A"%char; None; None] in
  get_alleles read positions = Ok calls ∧ positions !! 0%nat = Some (snp "1" 1) ∧
  ((∃ c, calls !! 0%nat = Some (Some c)) ↔
   (∃ read_pos read_nt, observed_at read (snp "1" 1) read_pos read_nt)).
Proof.
  intros read positions calls.
  assert (get_alleles read positions = Ok calls) as Hcalls by (vm_compute; reflexivity).
  assert (positions !! 0%nat = Some (snp "1" 1)) as Hi by reflexivity.
  split; [exact Hcalls|]. split; [exact Hi|].
  exact (get_alleles_complete read positions calls 0 (snp "1" 1) Hcalls Hi).
Defined.

(** ** The loop over the reads *)

Lemma passing_spec read : passing read = true ↔ passes_filters read.
Proof.
  unfold passing, passes_filters. rewrite !andb_true_iff, !negb_true_iff, Z.ltb_ge.
  tauto.
Qed.

Lemma count_read_counted positions acc read :
  count_read positions acc read =
  if passing read then
    alleles ← get_alleles read positions;
    Ok (acc ++ option_list (counted positions read))
  else Ok acc.
Proof.
  unfold count_read, counted, passing.
  destruct (mapping_quality read <? 10); [done|].
  destruct (is_secondary read); [done|].
  destruct (is_supplementary read); [done|].
  destruct (is_unmapped read); [done|]. simpl.
  destruct (get_alleles read positions) as [alleles|e]; [|done]. simpl.
  destruct (all_called alleles); simpl; [done|]. by rewrite app_nil_r.
Qed.

Lemma count_loop_Ok positions reads : ∀ acc r,
  foldM (count_read positions) acc reads = Ok r ↔
  Forall (λ read, passing read = true → ∃ a, get_alleles read positions = Ok a) reads ∧
  r = acc ++ omap (counted positions) reads.
Proof.
  induction reads as [|read reads IH]; intros acc r.
  - simpl. rewrite app_nil_r. split; [intros [= ->]; by split|by intros [_ ->]].
  - rewrite foldM_cons, count_read_counted, Forall_cons. csimpl.
    destruct (passing read) eqn:Hp.
    + destruct (get_alleles read positions) as [alleles|e] eqn:Hga.
      * rewrite bind_Ok, bind_Ok, IH, <- app_assoc.
        destruct (counted positions read); simpl;
          (split; intros [Hall ->]; (split; [|done]); [split; eauto|apply Hall]).
      * simpl. split; [done|]. intros [[Hex _] _]. by destruct Hex.
    + rewrite bind_Ok, IH.
      assert (counted positions read = None) as -> by (unfold counted; by rewrite Hp).
      split; intros [Hall ->]; (split; [|done]); [by split|apply Hall].
Qed.

Lemma count_loop_filter positions reads : ∀ acc,
  foldM (count_read positions) acc (List.filter passing reads) =
  foldM (count_read positions) acc reads.
Proof.
  induction reads as [|read reads IH]; intros acc; [done|]. simpl List.filter.
  destruct (passing read) eqn:Hp.
  - rewrite !foldM_cons. destruct (count_read positions acc read); simpl; [apply IH|done].
  - rewrite foldM_cons, count_read_counted, Hp, bind_Ok. apply IH.
Qed.

(** X9. Reads of mapping quality below 10 and secondary, supplementary or
    unmapped reads have no influence on the count table, errors included:
    the table is that of the alignment file without them. *)
Theorem rejected_reads_ignored (bam : AlignmentFile) (positions : list GenomePosition) :
  get_haplotype_counts (keep_passing bam) positions = get_haplotype_counts bam positions.
Proof.
  unfold get_haplotype_counts.
  destruct (py_index positions 0) as [p0|]; [|done]. rewrite !bind_Ok.
  destruct (pos <$> py_min positions) as [lo|]; [|done]. rewrite !bind_Ok.
  destruct (pos <$> py_max positions) as [hi|]; [|done]. rewrite !bind_Ok.
  simpl fetch. by rewrite count_loop_filter.
Qed.

(** ** The count table *)

Lemma sum_values_insert (counts : gmap string nat) (k : string) (v : nat) :
  (sum_values (<[k := v]> counts) + default 0 (counts !! k) = sum_values counts + v)%nat.
Proof.
  unfold sum_values.
  assert (∀ (m : gmap string nat) (j1 j2 : string) (z1 z2 y : nat),
            j1 ≠ j2 → m !! j1 = Some z1 → m !! j2 = Some z2 →
            (z1 + (z2 + y) = z2 + (z1 + y))%nat) as Hcomm by (intros; lia).
  destruct (counts !! k) as [w|] eqn:Hk; simpl.
  - rewrite <- insert_delete_eq.
    rewrite map_fold_insert_L; [|apply Hcomm|apply lookup_delete_eq].
    rewrite (map_fold_delete_L _ _ k w counts); [lia|apply Hcomm|done].
  - rewrite map_fold_insert_L; [lia|apply Hcomm|done].
Qed.

Lemma sum_values_Counter (l : list string) : sum_values (Counter l) = length l.
Proof.
  induction l as [|x l IH] using rev_ind; [done|].
  rewrite Counter_snoc, length_app. simpl.
  pose proof (sum_values_insert (Counter l) x (S (default 0%nat (Counter l !! x)))). lia.
Qed.

Lemma size_le_sum_values (counts : gmap string nat) :
  map_Forall (λ _ v, 0 < v)%nat counts → (size counts ≤ sum_values counts)%nat.
Proof.
  induction counts as [|k v m Hk IH] using map_ind; intros Hpos.
  - by rewrite map_size_empty.
  - rewrite map_size_insert_None by done.
    pose proof (sum_values_insert m k v) as Hs. rewrite Hk in Hs. simpl in Hs.
    apply map_Forall_insert in Hpos as [Hv Hpos]; [|done].
    specialize (IH Hpos). lia.
Qed.

Lemma join_length (alleles : list (option ascii)) :
  all_called alleles = true → String.length (join alleles) = length alleles.
Proof.
  unfold join. rewrite <- length_list_ascii_of_string, list_ascii_of_string_of_list_ascii.
  induction alleles as [|[c|] alleles IH]; csimpl; [done| |done].
  intros H. by rewrite IH.
Qed.

Lemma get_alleles_length read positions calls :
  get_alleles read positions = Ok calls → length calls = length positions.
Proof.
  unfold get_alleles. destruct (foldM _ _ _) as [alleles|]; [|done].
  rewrite bind_Ok. intros [= <-]. apply length_fmap.
Qed.

Lemma counted_length positions read k :
  counted positions read = Some k → String.length k = length positions.
Proof.
  unfold counted. destruct (passing read); [|done].
  destruct (get_alleles read positions) as [alleles|] eqn:Hga; [|done].
  destruct (all_called alleles) eqn:Hall; [|done]. intros [= <-].
  rewrite join_length by done. by eapply get_alleles_length.
Qed.

Lemma get_haplotype_counts_Ok bam positions counts :
  get_haplotype_counts bam positions = Ok counts →
  ∃ p0 lo hi, py_index positions 0 = Ok p0 ∧ py_min positions = Ok lo ∧
    py_max positions = Ok hi ∧
    let reads := fetch bam (chrom p0) (pos lo) (pos hi) in
    Forall (λ read, passing read = true → ∃ a, get_alleles read positions = Ok a) reads ∧
    counts = Counter (omap (counted positions) reads).
Proof.
  destruct (py_index positions 0) as [p0|] eqn:H0;
    [|unfold get_haplotype_counts; by rewrite H0].
  destruct (py_min positions) as [lo|] eqn:Hlo;
    [|unfold get_haplotype_counts; by rewrite H0, Hlo].
  destruct (py_max positions) as [hi|] eqn:Hhi;
    [|unfold get_haplotype_counts; by rewrite H0, Hlo, Hhi].
  rewrite (get_haplotype_counts_unfold bam _ p0 lo hi) by done.
  destruct (foldM _ _ _) as [r|] eqn:Hloop; [|done]. intros [= <-].
  apply count_loop_Ok in Hloop as [Hall ->]. exists p0, lo, hi. by repeat split.
Qed.

Lemma occurrences_omap {A} `{EqDecision B} (f : A → option B) (k : B) (l : list A) :
  occurrences k (omap f l) = occurrences (Some k) (f <$> l).
Proof.
  unfold occurrences. induction l as [|x l IH]; csimpl; [done|].
  rewrite (filter_cons _ (f x)). destruct (f x) as [k'|].
  - rewrite filter_cons. destruct (decide (k' = k)) as [->|Hne].
    + rewrite decide_True by done. simpl. by rewrite IH.
    + by rewrite decide_False by congruence.
  - by rewrite decide_False by done.
Qed.

(** X10. The count table has one entry for each allele combination of a
    read that passes the filters with a call at every position: its key has
    one base per position, its count is the number of such reads and is at
    least 1, and the counts add up to the number of these reads, at most
    the number of reads fetched. *)
Theorem get_haplotype_counts_table (bam : AlignmentFile)
    (positions : list GenomePosition) (counts : gmap string nat) :
  get_haplotype_counts bam positions = Ok counts →
  ∃ p0 lo hi, py_index positions 0 = Ok p0 ∧ py_min positions = Ok lo ∧
    py_max positions = Ok hi ∧
    let reads := fetch bam (chrom p0) (pos lo) (pos hi) in
    counts = Counter (omap (counted positions) reads) ∧
    sum_values counts = length (omap (counted positions) reads) ∧
    (sum_values counts ≤ length reads)%nat ∧
    ∀ k v, counts !! k = Some v →
      String.length k = length positions ∧ (1 ≤ v)%nat ∧
      v = occurrences (Some k) (counted positions <$> reads).
Proof.
  intros (p0 & lo & hi & Hp0 & Hlo & Hhi & Hall & ->)%get_haplotype_counts_Ok.
  exists p0, lo, hi. split; [done|]. split; [done|]. split; [done|]. simpl.
  split; [done|]. split; [apply sum_values_Counter|].
  split; [rewrite sum_values_Counter; apply length_omap_le|].
  intros k v Hk. split; [|split].
  - rewrite Counter_lookup in Hk. case_decide as Hin; [|done].
    apply list_elem_of_omap in Hin as (read & _ & Hc). by eapply counted_length.
  - by eapply Counter_positive.
  - rewrite Counter_lookup in Hk. case_decide; [|done]. injection Hk as <-.
    apply occurrences_omap.
Qed.

Lemma get_haplotype_counts_table_witness :
  let bam := bam_of [matching_read "1" 0 "AAA" quals_30;
                     matching_read "1" 0 "AAA" quals_30;
                     matching_read "1" 0 "AAT" quals_30] in
  let positions := [snp "1" 1; snp "1" 2; snp "1" 3] in
  let counts := Counter ["AAA"; "AAA"; "AAT"]%string in
  get_haplotype_counts bam positions = Ok counts ∧
  ∃ p0 lo hi, py_index positions 0 = Ok p0 ∧ py_min positions = Ok lo ∧
    py_max positions = Ok hi ∧
    let reads := fetch bam (chrom p0) (pos lo) (pos hi) in
    counts = Counter (omap (counted positions) reads) ∧
    sum_values counts = length (omap (counted positions) reads) ∧
    (sum_values counts ≤ length reads)%nat ∧
    ∀ k v, counts !! k = Some v →
      String.length k = length positions ∧ (1 ≤ v)%nat ∧
      v = occurrences (Some k) (counted positions <$> reads).
Proof.
  intros bam positions counts.
  assert (get_haplotype_counts bam positions = Ok counts) as Hcounts
    by (vm_compute; reflexivity).
  split; [exact Hcounts|].
  exact (get_haplotype_counts_table bam positions counts Hcounts).
Defined.

(** X11. The count table does not depend on the order in which the
    alignment file yields the reads. *)
Theorem read_order_irrelevant (bam bam' : AlignmentFile)
    (positions : list GenomePosition) (counts : gmap string nat) :
  (∀ c start end_, fetch bam' c start end_ ≡ₚ fetch bam c start end_) →
  get_haplotype_counts bam positions = Ok counts →
  get_haplotype_counts bam' positions = Ok counts.
Proof.
  intros Hperm (p0 & lo & hi & Hp0 & Hlo & Hhi & Hall & ->)%get_haplotype_counts_Ok.
  rewrite (get_haplotype_counts_unfold bam' _ p0 lo hi) by done.
  destruct (foldM (count_read positions) [] (fetch bam' (chrom p0) (pos lo) (pos hi)))
    as [r|e] eqn:Hloop.
  - apply count_loop_Ok in Hloop as [_ ->]. simpl. f_equal.
    apply Counter_Permutation. by rewrite Hperm.
  - exfalso. assert (∃ r, foldM (count_read positions) []
                         (fetch bam' (chrom p0) (pos lo) (pos hi)) = Ok r) as [r Hr].
    { eexists. apply count_loop_Ok. split; [|done]. by rewrite Hperm. }
    congruence.
Qed.

Lemma read_order_irrelevant_witness :
  let r1 := matching_read "1" 0 "AAA" quals_30 in
  let r2 := matching_read "1" 0 "AAT" quals_30 in
  let bam := {| fetch := λ _ _ _, [r1; r2] |} in
  let bam' := {| fetch := λ _ _ _, [r2; r1] |} in
  let positions := [snp "1" 1; snp "1" 2; snp "1" 3] in
  let counts := Counter ["AAA"; "AAT"]%string in
  (∀ c start end_, fetch bam' c start end_ ≡ₚ fetch bam c start end_) ∧
  get_haplotype_counts bam positions = Ok counts ∧
  get_haplotype_counts bam' positions = Ok counts.
Proof.
  intros r1 r2 bam bam' positions counts.
  assert (∀ c start end_, fetch bam' c start end_ ≡ₚ fetch bam c start end_) as Hperm
    by (intros; apply perm_swap).
  assert (get_haplotype_counts bam positions = Ok counts) as Hcounts
    by (vm_compute; reflexivity).
  split; [exact Hperm|]. split; [exact Hcounts|].
  exact (read_order_irrelevant bam bam' positions counts Hperm Hcounts).
Defined.

(** X12. The retained count is the size of a part of the count table: it
    never exceeds the number of distinct allele combinations, which never
    exceeds the number of reads counted. *)
Theorem retained_count_bounds (bam : AlignmentFile) (positions : list GenomePosition)
    (min_count : spec_float) (n : nat) :
  get_num_haplotype bam positions min_count = Ok n →
  ∃ counts fc, get_haplotype_counts bam positions = Ok counts ∧
    filtered_counts counts min_count = Ok fc ∧ fc ⊆ counts ∧ n = size fc ∧
    (n ≤ size counts)%nat ∧ (size counts ≤ sum_values counts)%nat.
Proof.
  unfold get_num_haplotype.
  destruct (get_haplotype_counts bam positions) as [counts|] eqn:Hc; [|done].
  rewrite bind_Ok.
  destruct (filtered_counts counts min_count) as [fc|] eqn:Hf; [|done].
  rewrite bind_Ok. intros [= <-]. exists counts, fc.
  assert (fc ⊆ counts) as Hsub.
  { unfold filtered_counts in Hf. destruct (float_lt_int min_count 1).
    - destruct (int_mul_float _ _); [|done]. rewrite bind_Ok in Hf.
      injection Hf as <-. apply map_filter_subseteq.
    - injection Hf as <-. apply map_filter_subseteq. }
  repeat split; try done.
  - by apply map_subseteq_size.
  - apply size_le_sum_values. by eapply get_haplotype_counts_positive.
Qed.

Lemma retained_count_bounds_witness :
  let bam := bam_of [matching_read "1" 0 "AAA" quals_30;
                     matching_read "1" 0 "AAA" quals_30;
                     matching_read "1" 0 "AAT" quals_30] in
  let positions := [snp "1" 1; snp "1" 2; snp "1" 3] in
  get_num_haplotype bam positions float_0_5 = Ok 1%nat ∧
  ∃ counts fc, get_haplotype_counts bam positions = Ok counts ∧
    filtered_counts counts float_0_5 = Ok fc ∧ fc ⊆ counts ∧ 1%nat = size fc ∧
    (1 ≤ size counts)%nat ∧ (size counts ≤ sum_values counts)%nat.
Proof.
  intros bam positions.
  assert (get_num_haplotype bam positions float_0_5 = Ok 1%nat) as Hn
    by (vm_compute; reflexivity).
  split; [exact Hn|]. exact (retained_count_bounds bam positions float_0_5 1 Hn).
Defined.

(** ** A threshold that is not positive *)

Lemma nonpositive_threshold (counts : gmap string nat) (min_count : spec_float)
    (k : string) (v : nat) :
  map_Forall (λ _ v, 0 < v)%nat counts →
  valid_binary prec emax min_count = true →
  SFleb min_count (S754_zero false) = true →
  counts !! k = Some v →
  float_lt_int min_count 1 = true ∧
  ∀ t, int_mul_float (Z.of_nat (sum_values counts)) min_count = Ok t →
       int_gt_float (Z.of_nat v) t = true.
Proof.
  intros Hpos Hvalid Hle Hk.
  assert (0 < v)%nat as Hv by (by eapply Hpos).
  pose proof (sum_values_ge counts k v Hk) as Hsum.
  split.
  - destruct min_count as [s|s| |s m e]; [done|by destruct s|done|].
    destruct s; [|done]. rewrite float_lt_int_iff. unfold float_compare_int, cond_Zopp.
    destruct (0 <=? e); rewrite Some_compare_lt.
    + assert (0 ≤ 2 ^ e) by (apply Z.pow_nonneg; lia). nia.
    + assert (0 ≤ 2 ^ (- e)) by (apply Z.pow_nonneg; lia). nia.
  - unfold int_mul_float, int_gt_float. intros t.
    destruct (float_of_int (Z.of_nat (sum_values counts))) as [T|] eqn:HT; [|done].
    assert (0 < Z.of_nat (sum_values counts)) as Htot by lia.
    destruct (float_of_int_pos _ T Htot HT) as (mT & eT & -> & HcT & HeT).
    rewrite bind_Ok. intros [= <-].
    destruct min_count as [s|s| |s m e]; [|by destruct s|done|].
    + simpl. rewrite float_lt_int_iff. unfold float_compare_int.
      apply Some_compare_lt. lia.
    + destruct s; [|done]. apply valid_finite in Hvalid as [Hc He].
      change (binary_round_aux _ _ _ _ _ _)
        with (SFmul prec emax (S754_finite false mT eT) (S754_finite true m e)).
      rewrite (SFmul_scaled _ _ _ _ _ _ (Z.min (-1074) (eT + e))) by (done || lia).
      simpl xorb. apply float_lt_int_negative; [lia| |lia].
      apply scaled_product_pos. lia.
Qed.

(** X13. A [min_count] that is zero or negative filters nothing: every
    allele combination of the count table is retained. *)
Theorem nonpositive_min_count_keeps_all (bam : AlignmentFile)
    (positions : list GenomePosition) (min_count : spec_float)
    (counts : gmap string nat) :
  valid_binary prec emax min_count = true →
  SFleb min_count (S754_zero false) = true →
  get_haplotype_counts bam positions = Ok counts →
  Z.of_nat (sum_values counts) < 2 ^ 1023 →
  filtered_counts counts min_count = Ok counts ∧
  get_num_haplotype bam positions min_count = Ok (size counts).
Proof.
  intros Hvalid Hle Hcounts Hsum.
  pose proof (get_haplotype_counts_positive _ _ _ Hcounts) as Hpos.
  assert (filtered_counts counts min_count = Ok counts) as Hf.
  { unfold filtered_counts.
    destruct (float_of_int_total (Z.of_nat (sum_values counts)) ltac:(lia)) as [T HT].
    destruct (decide (counts = ∅)) as [->|Hne].
    - destruct (float_lt_int min_count 1).
      + unfold int_mul_float, filter_counts. by rewrite HT, !bind_Ok, map_filter_empty.
      + unfold filter_counts. by rewrite map_filter_empty.
    - apply map_choose in Hne as (k0 & v0 & Hk0).
      destruct (nonpositive_threshold counts min_count k0 v0 Hpos Hvalid Hle Hk0)
        as [-> _].
      unfold int_mul_float. rewrite HT, !bind_Ok. f_equal.
      apply map_filter_id. intros k v Hk. simpl.
      destruct (nonpositive_threshold counts min_count k v Hpos Hvalid Hle Hk)
        as [_ Hgt].
      apply Is_true_true, Hgt. unfold int_mul_float. by rewrite HT, bind_Ok. }
  split; [done|]. unfold get_num_haplotype. by rewrite Hcounts, bind_Ok, Hf.
Qed.

Lemma nonpositive_min_count_keeps_all_witness :
  let bam := bam_of [matching_read "1" 0 "AAA" quals_30;
                     matching_read "1" 0 "AAA" quals_30;
                     matching_read "1" 0 "AAT" quals_30] in
  let positions := [snp "1" 1; snp "1" 2; snp "1" 3] in
  let counts := Counter ["AAA"; "AAA"; "AAT"]%string in
  valid_binary prec emax (S754_zero false) = true ∧
  SFleb (S754_zero false) (S754_zero false) = true ∧
  get_haplotype_counts bam positions = Ok counts ∧
  Z.of_nat (sum_values counts) < 2 ^ 1023 ∧
  filtered_counts counts (S754_zero false) = Ok counts ∧
  get_num_haplotype bam positions (S754_zero false) = Ok (size counts).
Proof.
  intros bam positions counts.
  assert (valid_binary prec emax (S754_zero false) = true) as Hvalid by reflexivity.
  assert (SFleb (S754_zero false) (S754_zero false) = true) as Hle by reflexivity.
  assert (get_haplotype_counts bam positions = Ok counts) as Hcounts
    by (vm_compute; reflexivity).
  assert (Z.of_nat (sum_values counts) < 2 ^ 1023) as Hsum by (vm_compute; reflexivity).
  split; [exact Hvalid|]. split; [exact Hle|]. split; [exact Hcounts|].
  split; [exact Hsum|].
  exact (nonpositive_min_count_keeps_all bam positions _ counts Hvalid Hle Hcounts Hsum).
Defined.

(** ** A fraction of at least one half *)

(** Half of an int below [2 ^ 53] is exact. *)
Lemma int_mul_float_0_5 (n v : Z) :
  0 < n < 2 ^ 53 →
  ∃ t, int_mul_float n float_0_5 = Ok t ∧
       (float_lt_int t v = true ↔ n < 2 * v).
Proof.
  intros Hn. unfold int_mul_float. rewrite float_of_int_small, bind_Ok by done.
  eexists. split; [done|].
  pose proof (Z.log2_spec n ltac:(lia)) as Hlog. pose proof (Z.log2_nonneg n) as Hl0.
  assert (Z.log2 n < 53) as Hl53 by (apply Z.log2_lt_pow2; lia).
  set (L := Z.log2 n) in *.
  assert (0 < 2 ^ (52 - L)) as Hpow by lia.
  assert (2 ^ 52 ≤ n * 2 ^ (52 - L) < 2 ^ 53) as Hm.
  { split.
    - replace 52 with (L + (52 - L)) at 1 by lia. rewrite Z.pow_add_r by lia.
      apply Z.mul_le_mono_nonneg_r; lia.
    - replace 53 with (Z.succ L + (52 - L)) by lia. rewrite Z.pow_add_r by lia.
      apply Z.mul_lt_mono_pos_r; lia. }
  destruct (n * 2 ^ (52 - L)) as [|mT|] eqn:HmT; [lia| |lia].
  change (Z.to_pos (Zpos mT)) with mT.
  assert (Z.log2 (Zpos mT) = 52) as Hlog_m.
  { apply Z.le_antisymm; [|apply Z.log2_le_pow2; lia].
    assert (Z.log2 (Zpos mT) < 53) by (apply Z.log2_lt_pow2; lia). lia. }
  assert (canonical_mantissa prec emax mT (L - 52) = true) as Hcan.
  { apply canonical_mantissa_spec. lia. }
  unfold float_0_5.
  rewrite (SFmul_scaled false false mT _ (L - 52) (-53) (-1074)); [|done|done|lia|lia].
  simpl xorb. rewrite round_float_final.
  assert (round_final (-1074) (Zpos mT * 4503599627370496 * 2 ^ (L - 52 + -53 - -1074))
          = (Zpos mT, L - 53)) as ->.
  { replace (Zpos mT * 4503599627370496 * 2 ^ (L - 52 + -53 - -1074))
      with (Zpos mT * 2 ^ (L - 53 - -1074)).
    2:{ change 4503599627370496 with (2 ^ 52).
        rewrite <- Z.mul_assoc, <- Z.pow_add_r by lia. do 2 f_equal. lia. }
    unfold round_final, round_scaled.
    rewrite Z.log2_mul_pow2, Hlog_m, fexp_unfold by lia.
    replace (Z.max (L - 53 - -1074 + 52 + 1 + -1074 - 53) (-1074)) with (L - 53) by lia.
    rewrite rne_exact by lia.
    destruct (Z.eqb_spec (Zpos mT) (2 ^ prec)) as [Heq|_]; [|done].
    change (2 ^ prec) with (2 ^ 53) in Heq. lia. }
  simpl fst. simpl snd.
  rewrite (float_lt_int_finish _ _ (-1074) v) by lia.
  replace (L - 53 - -1074) with ((52 - L) + (L - 53 - -1074) - (52 - L)) by lia.
  assert (Zpos mT * 2 ^ (L - 53 - -1074) = n * 2 ^ 1073) as Hval.
  { rewrite <- HmT, <- Z.mul_assoc, <- Z.pow_add_r by lia. do 2 f_equal. lia. }
  replace (52 - L + (L - 53 - -1074) - (52 - L)) with (L - 53 - -1074) by lia.
  rewrite Hval. change (- -1074) with (1 + 1073). rewrite Z.pow_add_r by lia.
  assert (0 < 2 ^ 1073) by lia. split.
  - intros [[? _]|(_ & _ & Hlt)]; [lia|]. nia.
  - intros Hlt. right. split; [lia|]. split; [lia|]. nia.
Qed.

Lemma sum_values_two (counts : gmap string nat) (k1 k2 : string) (v1 v2 : nat) :
  k1 ≠ k2 → counts !! k1 = Some v1 → counts !! k2 = Some v2 →
  (v1 + v2 ≤ sum_values counts)%nat.
Proof.
  intros Hne H1 H2.
  assert (sum_values counts = v1 + sum_values (delete k1 counts))%nat as ->.
  { unfold sum_values.
    apply (map_fold_delete_L (λ (_ : string) (v acc : nat), (v + acc)%nat) 0%nat k1 v1 counts);
      [intros; lia|done]. }
  assert (v2 ≤ sum_values (delete k1 counts))%nat; [|lia].
  apply (sum_values_ge _ k2). by rewrite lookup_delete_ne.
Qed.

Lemma size_le_1 (m : gmap string nat) :
  (∀ k1 k2 v1 v2, m !! k1 = Some v1 → m !! k2 = Some v2 → k1 = k2) →
  (size m ≤ 1)%nat.
Proof.
  intros Huniq. destruct (decide (m = ∅)) as [->|Hne]; [rewrite map_size_empty; lia|].
  apply map_choose in Hne as (k1 & v1 & H1).
  rewrite <- (insert_delete_id m k1 v1 H1), map_size_insert_None by apply lookup_delete_eq.
  destruct (decide (delete k1 m = ∅)) as [->|Hne]; [rewrite map_size_empty; lia|].
  apply map_choose in Hne as (k2 & v2 & H2).
  apply lookup_delete_Some in H2 as [Hne H2]. by destruct (Hne (Huniq _ _ _ _ H1 H2)).
Qed.

(** X14. With a fraction [min_count] from 0.5 to below 1 and fewer than
    [2 ^ 53] counted reads, at most one allele combination is retained: a
    retained combination has more than half of the reads. *)
Theorem majority_min_count (bam : AlignmentFile) (positions : list GenomePosition)
    (min_count : spec_float) (counts : gmap string nat) :
  valid_binary prec emax min_count = true →
  SFleb float_0_5 min_count = true → float_lt_int min_count 1 = true →
  get_haplotype_counts bam positions = Ok counts →
  Z.of_nat (sum_values counts) < 2 ^ 53 →
  ∃ n, get_num_haplotype bam positions min_count = Ok n ∧ (n ≤ 1)%nat.
Proof.
  intros Hvalid Hhalf Hreg Hcounts Hsum.
  pose proof (get_haplotype_counts_positive _ _ _ Hcounts) as Hpos.
  unfold get_num_haplotype. rewrite Hcounts, bind_Ok. unfold filtered_counts.
  rewrite Hreg. unfold int_mul_float.
  destruct (float_of_int_total (Z.of_nat (sum_values counts))) as [T HT].
  { split; [lia|]. etrans; [exact Hsum|]. by apply Z.pow_lt_mono_r. }
  rewrite HT, !bind_Ok. eexists. split; [done|].
  apply size_le_1. intros k1 k2 v1 v2.
  unfold filter_counts. rewrite !map_lookup_filter_Some. simpl.
  intros [H1 Hgt1] [H2 Hgt2]. destruct (decide (k1 = k2)) as [|Hne]; [done|exfalso].
  pose proof (sum_values_two counts k1 k2 v1 v2 Hne H1 H2) as Htwo.
  assert (0 < v1)%nat as Hv1 by (by eapply Hpos).
  assert (0 < v2)%nat as Hv2 by (by eapply Hpos).
  assert (0 < Z.of_nat (sum_values counts) < 2 ^ 53) as Hn by lia.
  destruct (float_of_int_pos _ T (proj1 Hn) HT) as (mT & eT & -> & HcT & _).
  assert (∀ v : nat, (0 < v)%nat →
            int_gt_float (Z.of_nat v) (SFmul prec emax (S754_finite false mT eT) min_count) →
            Z.of_nat (sum_values counts) < 2 * Z.of_nat v) as Hmaj.
  { intros v Hv Hgt. apply Is_true_true in Hgt. unfold int_gt_float in Hgt.
    apply (mul_threshold_mono mT eT float_0_5 min_count) in Hgt; [|done..|lia].
    destruct (int_mul_float_0_5 (Z.of_nat (sum_values counts)) (Z.of_nat v) Hn)
      as (t & Ht & Hiff).
    unfold int_mul_float in Ht. rewrite HT, bind_Ok in Ht. injection Ht as <-.
    by apply Hiff. }
  apply Hmaj in Hgt1, Hgt2; [|done..]. lia.
Qed.

Lemma majority_min_count_witness :
  let bam := bam_of [matching_read "1" 0 "AAA" quals_30;
                     matching_read "1" 0 "AAA" quals_30;
                     matching_read "1" 0 "AAT" quals_30] in
  let positions := [snp "1" 1; snp "1" 2; snp "1" 3] in
  let counts := Counter ["AAA"; "AAA"; "AAT"]%string in
  valid_binary prec emax float_0_5 = true ∧
  SFleb float_0_5 float_0_5 = true ∧ float_lt_int float_0_5 1 = true ∧
  get_haplotype_counts bam positions = Ok counts ∧
  Z.of_nat (sum_values counts) < 2 ^ 53 ∧
  ∃ n, get_num_haplotype bam positions float_0_5 = Ok n ∧ (n ≤ 1)%nat.
Proof.
  intros bam positions counts.
  assert (valid_binary prec emax float_0_5 = true) as Hvalid by reflexivity.
  assert (SFleb float_0_5 float_0_5 = true) as Hhalf by reflexivity.
  assert (float_lt_int float_0_5 1 = true) as Hreg by reflexivity.
  assert (get_haplotype_counts bam positions = Ok counts) as Hcounts
    by (vm_compute; reflexivity).
  assert (Z.of_nat (sum_values counts) < 2 ^ 53) as Hsum by (vm_compute; reflexivity).
  split; [exact Hvalid|]. split; [exact Hhalf|]. split; [exact Hreg|].
  split; [exact Hcounts|]. split; [exact Hsum|].
  exact (majority_min_count bam positions float_0_5 counts Hvalid Hhalf Hreg Hcounts Hsum).
Defined.

(** ** The aggregation *)

Lemma merge_sort_Permutation_eq (l1 l2 : list nat) :
  l1 ≡ₚ l2 → merge_sort (≤)%nat l1 = merge_sort (≤)%nat l2.
Proof.
  intros Hperm. apply (Sorted_unique (≤)%nat); [apply Sorted_merge_sort, _..|].
  by rewrite !merge_sort_Permutation.
Qed.

Lemma summarise_Permutation (l1 l2 : list nat) :
  l1 ≡ₚ l2 → summarise l1 = summarise l2.
Proof. intros Hperm. unfold summarise. by rewrite (merge_sort_Permutation_eq l1 l2). Qed.

(** X15. The result of [main] depends only on the multiset of the positive
    retained counts: two runs whose positive counts are permutations of
    each other return the same MOI and histogram, or fail alike. *)
Theorem marker_set_order_irrelevant (bam bam' : AlignmentFile)
    (vcf vcf' : list VariantRecord) (min_count min_count' : spec_float)
    (maxdist maxdist' : Z) (ns ns' : list nat) :
  retained_counts bam min_count (get_triplets vcf maxdist) ns →
  retained_counts bam' min_count' (get_triplets vcf' maxdist') ns' →
  filter (λ n, 0 < n)%nat ns ≡ₚ filter (λ n, 0 < n)%nat ns' →
  main bam vcf min_count maxdist = main bam' vcf' min_count' maxdist'.
Proof.
  intros Hns Hns' Hperm.
  rewrite (main_unfold _ _ _ _ ns), (main_unfold _ _ _ _ ns') by done.
  by apply summarise_Permutation.
Qed.

Lemma marker_set_order_irrelevant_witness :
  let bam := bam_of [matching_read "1" 0 "AAG" quals_30] in
  let vcf := [variant "1" 1; variant "1" 2; variant "1" 3; variant "1" 4] in
  let bam' := bam_of [matching_read "1" 1 "AGT" quals_30] in
  retained_counts bam float_0_5 (get_triplets vcf 2) [1; 0]%nat ∧
  retained_counts bam' float_0_5 (get_triplets vcf 2) [0; 1]%nat ∧
  filter (λ n, 0 < n)%nat [1; 0]%nat ≡ₚ filter (λ n, 0 < n)%nat [0; 1]%nat ∧
  main bam vcf float_0_5 2 = main bam' vcf float_0_5 2.
Proof.
  intros bam vcf bam'.
  assert (retained_counts bam float_0_5 (get_triplets vcf 2) [1; 0]%nat) as Hns
    by (repeat constructor).
  assert (retained_counts bam' float_0_5 (get_triplets vcf 2) [0; 1]%nat) as Hns'
    by (repeat constructor).
  assert (filter (λ n, 0 < n)%nat [1; 0]%nat ≡ₚ filter (λ n, 0 < n)%nat [0; 1]%nat)
    as Hperm by reflexivity.
  split; [exact Hns|]. split; [exact Hns'|]. split; [exact Hperm|].
  exact (marker_set_order_irrelevant bam bam' vcf vcf float_0_5 float_0_5 2 2
           [1; 0]%nat [0; 1]%nat Hns Hns' Hperm).
Defined.

Lemma py_index_Ok_elem {A} (l : list A) (i : Z) (x : A) :
  py_index l i = Ok x → x ∈ l.
Proof.
  unfold py_index. destruct (_ <? 0); [done|].
  destruct (l !! _) as [y|] eqn:Hy; [|done]. intros [= <-].
  by eapply list_elem_of_lookup_2.
Qed.

Lemma summarise_Ok (l : list nat) (r : MoiResult) :
  summarise l = Ok r → moi r ∈ l ∧ haplotype_counts r = Counter l.
Proof.
  intros Hr. split; [|by apply summarise_histogram].
  unfold summarise in Hr.
  destruct (int_mul_float _ _) as [x|]; [|done]. rewrite bind_Ok in Hr.
  destruct (int_of_float x) as [i|]; [|done]. rewrite bind_Ok in Hr.
  destruct (py_index _ i) as [m|] eqn:Hm; [|done]. rewrite bind_Ok in Hr.
  injection Hr as <-. simpl. apply py_index_Ok_elem in Hm.
  by rewrite merge_sort_Permutation in Hm.
Qed.

Lemma histogram_total_insert (h : gmap nat nat) (k v : nat) :
  (histogram_total (<[k := v]> h) + default 0 (h !! k) = histogram_total h + v)%nat.
Proof.
  unfold histogram_total.
  assert (∀ (m : gmap nat nat) (j1 j2 : nat) (z1 z2 y : nat),
            j1 ≠ j2 → m !! j1 = Some z1 → m !! j2 = Some z2 →
            (z1 + (z2 + y) = z2 + (z1 + y))%nat) as Hcomm by (intros; lia).
  destruct (h !! k) as [w|] eqn:Hk; simpl.
  - rewrite <- insert_delete_eq.
    rewrite map_fold_insert_L; [|apply Hcomm|apply lookup_delete_eq].
    rewrite (map_fold_delete_L _ _ k w h); [lia|apply Hcomm|done].
  - rewrite map_fold_insert_L; [lia|apply Hcomm|done].
Qed.

Lemma histogram_total_Counter (l : list nat) : histogram_total (Counter l) = length l.
Proof.
  induction l as [|x l IH] using rev_ind; [done|].
  rewrite Counter_snoc, length_app. simpl.
  pose proof (histogram_total_insert (Counter l) x (S (default 0%nat (Counter l !! x)))).
  lia.
Qed.

(** X16. When [main] returns, the MOI is the retained count of one of the
    marker sets and at least 1, the histogram has an entry for it, and the
    entries of the histogram add up to the number of marker sets with a
    positive retained count. *)
Theorem moi_is_a_retained_count (bam : AlignmentFile) (vcf : list VariantRecord)
    (min_count : spec_float) (maxdist : Z) (ns : list nat) (r : MoiResult) :
  retained_counts bam min_count (get_triplets vcf maxdist) ns →
  main bam vcf min_count maxdist = Ok r →
  moi r ∈ ns ∧ (1 ≤ moi r)%nat ∧
  (∃ c, haplotype_counts r !! moi r = Some c ∧ (1 ≤ c)%nat) ∧
  histogram_total (haplotype_counts r) = length (filter (λ n, 0 < n)%nat ns) ∧
  (size (haplotype_counts r) ≤ length (filter (λ n, 0 < n)%nat ns))%nat.
Proof.
  intros Hns Hr. rewrite (main_unfold _ _ _ _ ns Hns) in Hr.
  apply summarise_Ok in Hr as [Hmoi ->].
  pose proof Hmoi as [Hin Hpos]%list_elem_of_filter.
  split; [done|]. split; [lia|]. split; [|split].
  - rewrite Counter_lookup, decide_True by done. eexists. split; [done|].
    destruct (occurrences _ _) eqn:Hocc; [|lia].
    by apply occurrences_zero in Hocc.
  - apply histogram_total_Counter.
  - rewrite <- (histogram_total_Counter (filter _ ns)).
    generalize (filter (λ n, 0 < n)%nat ns). intros l.
    assert (map_Forall (λ _ v, 0 < v)%nat (Counter l)) as Hall.
    { intros k v Hk. by eapply Counter_positive. }
    revert Hall. generalize (Counter l). clear.
    intros h. induction h as [|k v m Hk IH] using map_ind; intros Hpos.
    + by rewrite map_size_empty.
    + rewrite map_size_insert_None by done.
      pose proof (histogram_total_insert m k v) as Hs. rewrite Hk in Hs. simpl in Hs.
      apply map_Forall_insert in Hpos as [Hv Hpos]; [|done].
      specialize (IH Hpos). lia.
Qed.

Lemma moi_is_a_retained_count_witness :
  let bam := bam_of [matching_read "1" 0 "AAG" quals_30] in
  let vcf := [variant "1" 1; variant "1" 2; variant "1" 3; variant "1" 4] in
  let r := {| moi := 1; haplotype_counts := {[ 1%nat := 1%nat ]} |} in
  retained_counts bam float_0_5 (get_triplets vcf 2) [1; 0]%nat ∧
  main bam vcf float_0_5 2 = Ok r ∧
  moi r ∈ [1; 0]%nat ∧ (1 ≤ moi r)%nat ∧
  (∃ c, haplotype_counts r !! moi r = Some c ∧ (1 ≤ c)%nat) ∧
  histogram_total (haplotype_counts r) = length (filter (λ n, 0 < n)%nat [1; 0]%nat) ∧
  (size (haplotype_counts r) ≤ length (filter (λ n, 0 < n)%nat [1; 0]%nat))%nat.
Proof.
  intros bam vcf r.
  assert (retained_counts bam float_0_5 (get_triplets vcf 2) [1; 0]%nat) as Hns
    by (repeat constructor).
  assert (main bam vcf float_0_5 2 = Ok r) as Hmain by (vm_compute; reflexivity).
  split; [exact Hns|]. split; [exact Hmain|].
  exact (moi_is_a_retained_count bam vcf float_0_5 2 [1; 0]%nat r Hns Hmain).
Defined.

(** ** The percentile *)

Lemma filter_Forall_id {A} (P : A → Prop) `{∀ x, Decision (P x)} (l : list A) :
  Forall P l → filter P l = l.
Proof.
  induction 1 as [|x l Hx _ IH]; [done|]. by rewrite filter_cons, decide_True, IH.
Qed.

Lemma sorted_rank_counts (s : list nat) (k m : nat) :
  Sorted (≤)%nat s → s !! k = Some m →
  (k + 1 ≤ length (filter (λ x, x ≤ m)%nat s))%nat ∧
  (length s - k ≤ length (filter (λ x, m ≤ x)%nat s))%nat.
Proof.
  intros Hsorted Hk. apply Sorted_StronglySorted in Hsorted; [|apply _].
  pose proof (lookup_lt_Some _ _ _ Hk) as Hlt.
  rewrite <- (take_drop_middle s k m Hk) in Hsorted |- *.
  pose proof (λ x1 x2, StronglySorted_app_1_elem_of (≤)%nat (take k s) (m :: drop (S k) s)
                x1 x2 Hsorted) as Hcross.
  apply StronglySorted_app_1_r, StronglySorted_cons in Hsorted as [Hafter _].
  rewrite !filter_app, !filter_cons, !decide_True, !length_app by lia. simpl.
  rewrite (filter_Forall_id (λ x, x ≤ m)%nat (take k s)).
  - rewrite (filter_Forall_id (λ x, m ≤ x)%nat (drop (S k) s)) by done.
    rewrite length_take, length_drop. lia.
  - apply Forall_forall. intros x Hx. apply Hcross; [done|left].
Qed.

(** X17. With at least one and fewer than [2 ^ 50] marker sets of positive
    retained count, [main] returns, and its MOI is a 90th percentile of
    these counts: more than nine tenths of them are at most the MOI, and at
    least one tenth of them are at least the MOI. *)
Theorem moi_percentile (bam : AlignmentFile) (vcf : list VariantRecord)
    (min_count : spec_float) (maxdist : Z) (ns qualifying : list nat) :
  retained_counts bam min_count (get_triplets vcf maxdist) ns →
  qualifying = filter (λ n, 0 < n)%nat ns →
  qualifying ≠ [] → Z.of_nat (length qualifying) < 2 ^ 50 →
  ∃ r, main bam vcf min_count maxdist = Ok r ∧
    (9 * length qualifying < 10 * length (filter (λ n, n ≤ moi r)%nat qualifying))%nat ∧
    (length qualifying ≤ 10 * length (filter (λ n, moi r ≤ n)%nat qualifying))%nat.
Proof.
  intros Hns Hq Hne Hlen. rewrite (main_unfold _ _ _ _ ns Hns), <- Hq.
  destruct (summarise_rank qualifying Hne Hlen) as (r & -> & Hrank).
  exists r. split; [done|].
  apply sorted_rank_counts in Hrank as [Hle Hge]; [|apply Sorted_merge_sort, _].
  rewrite !merge_sort_Permutation in Hle, Hge.
  pose proof (Nat.div_mod_eq (length qualifying * 9) 10) as Hdiv.
  pose proof (Nat.mod_upper_bound (length qualifying * 9) 10 ltac:(lia)) as Hmod.
  lia.
Qed.

Lemma moi_percentile_witness :
  let bam := bam_of [matching_read "1" 0 "AAG" quals_30] in
  let vcf := [variant "1" 1; variant "1" 2; variant "1" 3; variant "1" 4] in
  retained_counts bam float_0_5 (get_triplets vcf 2) [1; 0]%nat ∧
  [1%nat] = filter (λ n, 0 < n)%nat [1; 0]%nat ∧
  [1%nat] ≠ [] ∧ Z.of_nat (length [1%nat]) < 2 ^ 50 ∧
  ∃ r, main bam vcf float_0_5 2 = Ok r ∧
    (9 * length [1%nat] < 10 * length (filter (λ n, n ≤ moi r)%nat [1%nat]))%nat ∧
    (length [1%nat] ≤ 10 * length (filter (λ n, moi r ≤ n)%nat [1%nat]))%nat.
Proof.
  intros bam vcf.
  assert (retained_counts bam float_0_5 (get_triplets vcf 2) [1; 0]%nat) as Hns
    by (repeat constructor).
  assert ([1%nat] = filter (λ n, 0 < n)%nat [1; 0]%nat) as Hq by reflexivity.
  assert ([1%nat] ≠ []) as Hne by done.
  assert (Z.of_nat (length [1%nat]) < 2 ^ 50) as Hlen by (vm_compute; reflexivity).
  split; [exact Hns|]. split; [exact Hq|]. split; [exact Hne|]. split; [exact Hlen|].
  exact (moi_percentile bam vcf float_0_5 2 [1; 0]%nat [1%nat] Hns Hq Hne Hlen).
Defined.

Lemma filter_length_Forall {A} (P : A → Prop) `{∀ x, Decision (P x)} (l : list A) :
  length (filter P l) = length l → Forall P l.
Proof.
  induction l as [|x l IH]; [by constructor|].
  rewrite filter_cons. pose proof (length_filter P l) as Hle.
  destruct (decide (P x)); simpl; intros Hlen; [|lia].
  constructor; [done|]. apply IH. lia.
Qed.

(** X18. With at most ten marker sets of positive retained count, the MOI
    that [main] returns is the largest retained count. *)
Theorem small_sample_moi_is_maximum (bam : AlignmentFile) (vcf : list VariantRecord)
    (min_count : spec_float) (maxdist : Z) (ns : list nat) (r : MoiResult) :
  retained_counts bam min_count (get_triplets vcf maxdist) ns →
  (length (filter (λ n, 0 < n)%nat ns) ≤ 10)%nat →
  main bam vcf min_count maxdist = Ok r →
  moi r ∈ ns ∧ ∀ n, n ∈ ns → (n ≤ moi r)%nat.
Proof.
  intros Hns Hsmall Hr. rewrite (main_unfold _ _ _ _ ns Hns) in Hr.
  set (l := filter (λ n, 0 < n)%nat ns) in *.
  pose proof (summarise_Ok l r Hr) as [Hmoi _].
  assert (l ≠ []) as Hne by (intros Hnil; rewrite Hnil in Hmoi; by apply elem_of_nil in Hmoi).
  assert (Z.of_nat (length l) < 2 ^ 50) as Hlen.
  { apply Z.le_lt_trans with 10; [lia|]. by vm_compute. }
  destruct (summarise_rank l Hne Hlen) as (r' & Hr' & Hrank).
  rewrite Hr in Hr'. injection Hr' as <-.
  apply sorted_rank_counts in Hrank as [Hle _]; [|apply Sorted_merge_sort, _].
  rewrite merge_sort_Permutation in Hle.
  pose proof (Nat.div_mod_eq (length l * 9) 10) as Hdiv.
  pose proof (Nat.mod_upper_bound (length l * 9) 10 ltac:(lia)) as Hmod.
  pose proof (length_filter (λ x, x ≤ moi r)%nat l) as Hup.
  assert (Forall (λ x, x ≤ moi r)%nat l) as Hall
    by (apply (filter_length_Forall (λ x, x ≤ moi r)%nat l); lia).
  split; [by apply list_elem_of_filter in Hmoi as [_ ?]|].
  intros n Hn. destruct (decide (0 < n)%nat) as [Hpos|]; [|lia].
  rewrite Forall_forall in Hall. apply Hall. by apply list_elem_of_filter.
Qed.

Lemma small_sample_moi_is_maximum_witness :
  let bam := bam_of [matching_read "1" 0 "AAG" quals_30] in
  let vcf := [variant "1" 1; variant "1" 2; variant "1" 3; variant "1" 4] in
  let r := {| moi := 1; haplotype_counts := {[ 1%nat := 1%nat ]} |} in
  retained_counts bam float_0_5 (get_triplets vcf 2) [1; 0]%nat ∧
  (length (filter (λ n, 0 < n)%nat [1; 0]%nat) ≤ 10)%nat ∧
  main bam vcf float_0_5 2 = Ok r ∧
  moi r ∈ [1; 0]%nat ∧ ∀ n, n ∈ [1; 0]%nat → (n ≤ moi r)%nat.
Proof.
  intros bam vcf r.
  assert (retained_counts bam float_0_5 (get_triplets vcf 2) [1; 0]%nat) as Hns
    by (repeat constructor).
  assert (length (filter (λ n, 0 < n)%nat [1; 0]%nat) ≤ 10)%nat as Hsmall
    by (vm_compute; lia).
  assert (main bam vcf float_0_5 2 = Ok r) as Hmain by (vm_compute; reflexivity).
  split; [exact Hns|]. split; [exact Hsmall|]. split; [exact Hmain|].
  exact (small_sample_moi_is_maximum bam vcf float_0_5 2 [1; 0]%nat r Hns Hsmall Hmain).
Defined.

(** ** Errors *)

Lemma collect_num_haps_raise bam min_count acc positions e :
  get_num_haplotype bam positions min_count = Raise e →
  collect_num_haps bam min_count acc positions = Raise e.
Proof. intros Hraise. unfold collect_num_haps. by rewrite Hraise. Qed.

(** X19. [main] stops at the first marker set whose count fails and fails
    with the error of that marker set. *)
Theorem main_first_error (bam : AlignmentFile) (vcf : list VariantRecord)
    (min_count : spec_float) (maxdist : Z)
    (before after : list (list GenomePosition)) (positions : list GenomePosition)
    (ns : list nat) (e : exn) :
  get_triplets vcf maxdist = before ++ positions :: after →
  retained_counts bam min_count before ns →
  get_num_haplotype bam positions min_count = Raise e →
  main bam vcf min_count maxdist = Raise e.
Proof.
  intros Hsplit Hbefore Hraise. unfold main. rewrite Hsplit. simpl.
  rewrite foldM_app, (collect_loop _ _ _ ns) by done. rewrite bind_Ok, foldM_cons.
  by rewrite (collect_num_haps_raise _ _ _ _ e).
Qed.

Lemma main_first_error_witness :
  let bam := bam_of [matching_read "1" 0 "AAG" None] in
  let vcf := [variant "1" 1; variant "1" 2; variant "1" 3] in
  let positions := [snp "1" 1; snp "1" 2; snp "1" 3] in
  get_triplets vcf 500 = [] ++ positions :: [] ∧
  retained_counts bam float_0_5 [] [] ∧
  get_num_haplotype bam positions float_0_5 = Raise TypeError ∧
  main bam vcf float_0_5 500 = Raise TypeError.
Proof.
  intros bam vcf positions.
  assert (get_triplets vcf 500 = [] ++ positions :: []) as Hsplit by reflexivity.
  assert (retained_counts bam float_0_5 [] []) as Hbefore by constructor.
  assert (get_num_haplotype bam positions float_0_5 = Raise TypeError) as Hraise
    by (vm_compute; reflexivity).
  split; [exact Hsplit|]. split; [exact Hbefore|]. split; [exact Hraise|].
  exact (main_first_error bam vcf float_0_5 500 [] [] positions [] TypeError
           Hsplit Hbefore Hraise).
Defined.

(** ** Runs on well-formed reads *)





